(** * DataTable: sorting, selection and pagination state

    A shallow embedding of the state logic of the [DataTable] React
    component (Components/DataTable/DataTable.tsx): the comparator and the
    derived [sortedData], [totalPages] and [paginatedData], the event
    handlers [handleSort], [handleSelectRow], [handleSelectAll], [goToNext]
    and [goToPrev], and the two [useEffect] hooks that reset and clamp the
    current page.

    Conventions.
    - JS numbers that the component computes with (array lengths, page
      numbers, the page size, numeric cells) are integers and are modelled
      as [Z]; [itemsPerPage] is an integer different from 0 (a fractional
      page size, or [n / 0], has no counterpart here).
    - A JS [Set] of row ids is a [gset Id]: the component only ever asks
      [has] and [size], never the iteration order.
    - [String.prototype.localeCompare] belongs to the JS runtime; it is
      the single operation of the interface [Collator] and takes the
      options object the component passes, [{numeric: true, sensitivity:
      'base'}], as an argument.
    - [Array.prototype.sort] is a stable sort; it is modelled by a stable
      insertion sort, which is the result ECMAScript prescribes whenever
      the comparator is consistent on the rows being sorted.  For any
      other comparator the result is the engine's choice: [ConformingSort]
      is ECMAScript's side of the contract, [arrayTimSort] what V8 does
      with a short array, and [sortedDataWith] the sorted view on a given
      engine. *)

From Stdlib Require Import ZArith List Sorted Permutation OrderedTypeEx.
From stdpp Require Import base decidable countable gmap strings list pretty sorting.

Local Open Scope Z_scope.

(** ** Rows and cell values *)

(** [T['id']] where [T extends { id: string | number }]. *)
Inductive Id : Type :=
  | IdNum (n : Z)
  | IdStr (s : string).

Global Instance Id_eq_dec : EqDecision Id.
Proof. solve_decision. Defined.

Global Instance Id_countable : Countable Id.
Proof.
  refine (inj_countable'
            (λ i, match i with IdNum n => inl n | IdStr s => inr s end)
            (λ x, match x with inl n => IdNum n | inr s => IdStr s end) _).
  by intros [].
Defined.

(** What [row[key]] can evaluate to. *)
Inductive Value : Type :=
  | VUndefined
  | VNull
  | VNum (n : Z)
  | VStr (s : string)
  | VBool (b : bool).

Global Instance Value_eq_dec : EqDecision Value.
Proof. solve_decision. Defined.

(** A row object: its [id] and its other own properties. *)
Record Row : Type := mkRow {
  id : Id;
  fields : gmap string Value;
}.

Global Instance Row_eq_dec : EqDecision Row.
Proof. solve_decision. Defined.

Definition idValue (i : Id) : Value :=
  match i with
  | IdNum n => VNum n
  | IdStr s => VStr s
  end.

(** [row[key]]: a missing property reads as [undefined]. *)
Definition getField (row : Row) (key : string) : Value :=
  if decide (key = "id"%string) then idValue (id row)
  else default VUndefined (fields row !! key).

(** [a == null] holds for [null] and [undefined] only. *)
Definition isNullish (a : Value) : bool :=
  match a with
  | VUndefined | VNull => true
  | _ => false
  end.

(** [String(a)]. *)
Definition toString (a : Value) : string :=
  match a with
  | VUndefined => "undefined"
  | VNull => "null"
  | VNum n => pretty n
  | VStr s => s
  | VBool true => "true"
  | VBool false => "false"
  end.

(** ** Props, columns and state *)

Inductive Direction : Type := asc | desc.

Global Instance Direction_eq_dec : EqDecision Direction.
Proof. solve_decision. Defined.

Record SortConfig : Type := mkSortConfig {
  key : string;
  direction : Direction;
}.

Global Instance SortConfig_eq_dec : EqDecision SortConfig.
Proof. solve_decision. Defined.

Inductive SelectionMode : Type := single | multiple.

Global Instance SelectionMode_eq_dec : EqDecision SelectionMode.
Proof. solve_decision. Defined.

(** [Column<T>] without its presentation fields ([render], [width]);
    [sortable] is optional. *)
Record Column : Type := mkColumn {
  col_key : string;
  title : string;
  dataIndex : string;
  sortable : option bool;
}.

(** [DataTableProps<T>] with the defaults of the destructuring pattern
    already applied.  [onRowSelect] records whether the optional callback
    was supplied; the calls made to it are collected in a log. *)
Record Props : Type := mkProps {
  data : list Row;
  loading : bool;
  selectable : bool;
  selectionMode : SelectionMode;
  onRowSelect : bool;
  itemsPerPage : Z;
}.

(** The three [useState] cells. *)
Record State : Type := mkState {
  sortConfig : option SortConfig;
  selectedRows : gset Id;
  currentPage : Z;
}.

Definition initialState : State :=
  {| sortConfig := None; selectedRows := ∅; currentPage := 1 |}.

Definition setCurrentPage (v : Z) (st : State) : State :=
  {| sortConfig := sortConfig st;
     selectedRows := selectedRows st;
     currentPage := v |}.

Definition setSelectedRows (ids : gset Id) (st : State) : State :=
  {| sortConfig := sortConfig st;
     selectedRows := ids;
     currentPage := currentPage st |}.

Definition setSortConfig (c : option SortConfig) (st : State) : State :=
  {| sortConfig := c;
     selectedRows := selectedRows st;
     currentPage := currentPage st |}.

(** One argument of an [onRowSelect] call. *)
Definition Payload : Type := list Row.

(** ** The runtime's collator *)

(** [Intl.CollatorOptions], as far as the component uses them. *)
Inductive Sensitivity : Type :=
  | SensBase
  | SensAccent
  | SensCase
  | SensVariant.

Record CollatorOptions : Type := mkCollatorOptions {
  numeric : bool;
  sensitivity : Sensitivity;
}.

Class Collator : Type := {
  (** [sa.localeCompare(sb, undefined, options)] in the runtime's locale *)
  localeCompare : CollatorOptions → string → string → Z;
}.

(** ** [Array.prototype] operations *)

(** [arr.length] as a JS number. *)
Definition len {A} (l : list A) : Z := Z.of_nat (length l).

(** [arr.slice(start, end)]: a negative index counts from the end, both
    indices are clamped to [0, length], and an empty range gives []. *)
Definition slice {A} (l : list A) (start end_ : Z) : list A :=
  let k := if start <? 0 then Z.max (len l + start) 0 else Z.min start (len l) in
  let final := if end_ <? 0 then Z.max (len l + end_) 0 else Z.min end_ (len l) in
  take (Z.to_nat (final - k)) (drop (Z.to_nat k) l).

(** Stable insertion: [x] stood before every element of [l] and moves
    right only past the elements it is strictly greater than. *)
Fixpoint insert {A} (cmp : A → A → Z) (x : A) (l : list A) : list A :=
  match l with
  | [] => [x]
  | y :: l' => if 0 <? cmp x y then y :: insert cmp x l' else x :: l
  end.

(** [arr.sort(cmp)] on a fresh copy. *)
Fixpoint sort {A} (cmp : A → A → Z) (l : list A) : list A :=
  match l with
  | [] => []
  | x :: l' => insert cmp x (sort cmp l')
  end.

(** ECMAScript's "consistent comparison function for a set of values":
    [=CF] is an equivalence and [<CF], [>CF] are transitive on [l]. *)
Record Consistent {A} (cmp : A → A → Z) (l : list A) : Prop := {
  cf_refl : ∀ a, a ∈ l → cmp a a = 0;
  cf_sym : ∀ a b, a ∈ l → b ∈ l → cmp a b = 0 → cmp b a = 0;
  cf_eq_trans : ∀ a b c, a ∈ l → b ∈ l → c ∈ l →
    cmp a b = 0 → cmp b c = 0 → cmp a c = 0;
  cf_lt_trans : ∀ a b c, a ∈ l → b ∈ l → c ∈ l →
    cmp a b < 0 → cmp b c < 0 → cmp a c < 0;
  cf_gt_trans : ∀ a b c, a ∈ l → b ∈ l → c ∈ l →
    0 < cmp a b → 0 < cmp b c → 0 < cmp a c;
}.

(** [x] need not be placed after [y]. *)
Definition cmp_le {A} (cmp : A → A → Z) (x y : A) : Prop := cmp x y ≤ 0.

(** *** The engine's side of [sort]

    ECMAScript fixes the result of [sort] for a comparator that is
    consistent on the elements: the elements are kept, no element comes
    after one it compares below, and elements that compare equal keep
    their order.  For any other comparator the order is
    implementation-defined. *)
Record ConformingSort {A} (srt : (A → A → Z) → list A → list A) : Prop := {
  cs_perm : ∀ cmp l, srt cmp l ≡ₚ l;
  cs_sorted : ∀ cmp l,
    Consistent cmp l → StronglySorted (cmp_le cmp) (srt cmp l);
  cs_stable : ∀ cmp l a,
    Consistent cmp l → a ∈ l →
    filter (λ y, cmp a y = 0) (srt cmp l) = filter (λ y, cmp a y = 0) l;
}.

(** What V8 does with an array of fewer than 64 elements
    (third_party/v8/builtins/array-sort.tq): the run at the head of the
    array is found, reversed if it descends, and the remaining elements
    enter it by binary insertion; there is nothing to merge. *)

(** The number of elements after [prev] that continue the run. *)
Fixpoint runLength {A} (cmp : A → A → Z) (isDescending : bool) (prev : A)
    (l : list A) : nat :=
  match l with
  | [] => 0
  | x :: l' =>
      let order := cmp x prev in
      if (if isDescending then order <? 0 else 0 <=? order)
      then S (runLength cmp isDescending x l')
      else 0
  end.

(** [CountAndMakeRun]: the run, made ascending, and the elements after it. *)
Definition countAndMakeRun {A} (cmp : A → A → Z) (l : list A)
  : list A * list A :=
  match l with
  | elementHigh :: elementLow :: l' =>
      let isDescending := cmp elementLow elementHigh <? 0 in
      let n := (2 + runLength cmp isDescending elementLow l')%nat in
      (if isDescending then reverse (take n l) else take n l, drop n l)
  | _ => (l, [])
  end.

(** The loop of [BinaryInsertionSort] that finds the place of [pivot]
    among the elements [left .. right - 1]; every round halves the range. *)
Fixpoint binarySearch {A} (fuel : nat) (cmp : A → A → Z) (pivot : A)
    (a : list A) (left right : nat) : nat :=
  match fuel with
  | O => left
  | S fuel' =>
      if (left <? right)%nat then
        let mid := (left + Nat.div2 (right - left))%nat in
        match a !! mid with
        | Some e =>
            if cmp pivot e <? 0
            then binarySearch fuel' cmp pivot a left mid
            else binarySearch fuel' cmp pivot a (S mid) right
        | None => left
        end
      else left
  end.

(** One round of [BinaryInsertionSort]: the elements from [left] on move
    up by one and [pivot] takes the place. *)
Definition binaryInsert {A} (cmp : A → A → Z) (a : list A) (pivot : A)
  : list A :=
  let left := binarySearch (length a) cmp pivot a 0 (length a) in
  take left a ++ pivot :: drop left a.

Definition binaryInsertionSort {A} (cmp : A → A → Z) (run rest : list A)
  : list A :=
  foldl (binaryInsert cmp) run rest.

Definition arrayTimSort {A} (cmp : A → A → Z) (l : list A) : list A :=
  binaryInsertionSort cmp (countAndMakeRun cmp l).1 (countAndMakeRun cmp l).2.

(** A cell that holds a number or nothing. *)
Definition numericValue (a : Value) : bool :=
  match a with
  | VUndefined | VNull | VNum _ => true
  | _ => false
  end.

(** Every row of [d] has a number, [null] or [undefined] under [k]. *)
Definition numericColumn (k : string) (d : list Row) : Prop :=
  ∀ r, r ∈ d → numericValue (getField r k) = true.

(** A cell that is compared through its string form, or holds nothing. *)
Definition textValue (a : Value) : bool :=
  match a with
  | VNum _ => false
  | _ => true
  end.

(** No row of [d] has a number under [k]. *)
Definition textColumn (k : string) (d : list Row) : Prop :=
  ∀ r, r ∈ d → textValue (getField r k) = true.

(** A collator that orders the strings: equal strings form classes and
    the classes are linearly ordered. *)
Class ConsistentCollator `{Collator} : Prop := {
  lc_refl : ∀ o a, localeCompare o a a = 0;
  lc_sym : ∀ o a b, localeCompare o a b = 0 → localeCompare o b a = 0;
  lc_eq_trans : ∀ o a b c,
    localeCompare o a b = 0 → localeCompare o b c = 0 → localeCompare o a c = 0;
  lc_lt_trans : ∀ o a b c,
    localeCompare o a b < 0 → localeCompare o b c < 0 → localeCompare o a c < 0;
  lc_gt_trans : ∀ o a b c,
    0 < localeCompare o a b → 0 < localeCompare o b c → 0 < localeCompare o a c;
}.

(** ** The component *)

Section DataTable.
Context `{!Collator}.

(** *** Sorting (lines 43-62) *)

Definition compare (a b : Value) : Z :=
  if isNullish a && isNullish b then 0
  else if isNullish a then -1
  else if isNullish b then 1
  else match a, b with
       | VNum x, VNum y => x - y
       | _, _ =>
           localeCompare {| numeric := true; sensitivity := SensBase |}
             (toString a) (toString b)
       end.

(** The arrow function handed to [sort]. *)
Definition rowCompare (c : SortConfig) (x y : Row) : Z :=
  let a := getField x (key c) in
  let b := getField y (key c) in
  let cmp := compare a b in
  match direction c with
  | asc => cmp
  | desc => - cmp
  end.

Definition sortedData (d : list Row) (sc : option SortConfig) : list Row :=
  match sc with
  | None => d
  | Some c => sort (rowCompare c) d
  end.

(** [sortedData] on an engine whose [sort] is [srt]. *)
Definition sortedDataWith (srt : (Row → Row → Z) → list Row → list Row)
    (d : list Row) (sc : option SortConfig) : list Row :=
  match sc with
  | None => d
  | Some c => srt (rowCompare c) d
  end.

(** *** Pagination (lines 64-72, 121-122) *)

(** [Math.ceil(n / p)] for integers [n] and [p ≠ 0]. *)
Definition ceilDiv (n p : Z) : Z := - ((- n) `div` p).

Definition totalPages (p : Props) : Z :=
  Z.max 1 (ceilDiv (len (data p)) (itemsPerPage p)).

(** The page slice for a given page number. *)
Definition pageSlice (sorted : list Row) (page perPage : Z) : list Row :=
  let start := (page - 1) * perPage in
  slice sorted start (start + perPage).

Definition paginatedData (p : Props) (st : State) : list Row :=
  pageSlice (sortedData (data p) (sortConfig st)) (currentPage st) (itemsPerPage p).

Definition goToNext (p : Props) (st : State) : State :=
  setCurrentPage (Z.min (currentPage st + 1) (totalPages p)) st.

Definition goToPrev (st : State) : State :=
  setCurrentPage (Z.max 1 (currentPage st - 1)) st.

(** *** Header clicks (lines 74-82) *)

(** [!sortable] for the optional boolean. *)
Definition notSortable (s : option bool) : bool :=
  match s with
  | Some true => false
  | _ => true
  end.

Definition handleSort (k : string) (s : option bool) (st : State) : State :=
  if notSortable s then st
  else
    setSortConfig
      (match sortConfig st with
       | Some prev =>
           if decide (key prev = k)
           then Some {| key := k;
                        direction := match direction prev with
                                     | asc => desc
                                     | desc => asc
                                     end |}
           else Some {| key := k; direction := asc |}
       | None => Some {| key := k; direction := asc |}
       end) st.

(** *** Selection (lines 84-119) *)

(** [data.filter((d) => ids.has(d.id))] handed to [onRowSelect?.]. *)
Definition materialize (d : list Row) (ids : gset Id) : Payload :=
  filter (λ r, id r ∈ ids) d.

Definition notifySelection (p : Props) (ids : gset Id) : list Payload :=
  if onRowSelect p then [materialize (data p) ids] else [].

(** The set computed by the updater of [handleSelectRow]. *)
Definition toggleRow (mode : SelectionMode) (prev : gset Id) (i : Id) : gset Id :=
  match mode with
  | single => if decide (i ∈ prev) then ∅ else {[ i ]}
  | multiple => if decide (i ∈ prev) then prev ∖ {[ i ]} else prev ∪ {[ i ]}
  end.

Definition handleSelectRow (p : Props) (row : Row) (st : State)
  : State * list Payload :=
  if negb (selectable p) then (st, [])
  else
    let next := toggleRow (selectionMode p) (selectedRows st) (id row) in
    (setSelectedRows next st, notifySelection p next).

(** [new Set(data.map((r) => r.id))] *)
Definition allIds (d : list Row) : gset Id := list_to_set (id <$> d).

Definition handleSelectAll (p : Props) (st : State) : State * list Payload :=
  if negb (selectable p) || bool_decide (selectionMode p = single) then (st, [])
  else if decide (Z.of_nat (size (selectedRows st)) = len (data p))
  then (setSelectedRows ∅ st, notifySelection p ∅)
  else (setSelectedRows (allIds (data p)) st, notifySelection p (allIds (data p))).

(** *** Effects and the update loop (lines 38-41, 64-67) *)

(** The dependency arrays [[data.length]] and [[totalPages, currentPage]]
    of the last committed render. *)
Record Deps : Type := mkDeps {
  dep_length : Z;
  dep_totalPages : Z;
  dep_currentPage : Z;
}.

Definition renderDeps (p : Props) (st : State) : Deps :=
  {| dep_length := len (data p);
     dep_totalPages := totalPages p;
     dep_currentPage := currentPage st |}.

(** A mounted component: the props and state of its last render and the
    dependencies that render committed ([None] before the first commit). *)
Record Instance : Type := mkInstance {
  props : Props;
  state : State;
  committed : option Deps;
}.

(** First effect: [setCurrentPage(1)] when [data.length] changed.  The
    result is the list of values passed to [setCurrentPage]. *)
Definition pageResetEffect (prev : option Deps) (p : Props) : list Z :=
  match prev with
  | Some d => if decide (dep_length d = len (data p)) then [] else [1]
  | None => [1]
  end.

(** Second effect: it sees the [currentPage] of the render it belongs
    to, also when the first effect has just queued another value. *)
Definition pageClampEffect (prev : option Deps) (p : Props) (st : State) : list Z :=
  let body := if totalPages p <? currentPage st then [totalPages p] else [] in
  match prev with
  | Some d =>
      if decide (dep_totalPages d = totalPages p ∧ dep_currentPage d = currentPage st)
      then []
      else body
  | None => body
  end.

(** The effects of one render, in declaration order. *)
Definition runEffects (i : Instance) : list Z :=
  pageResetEffect (committed i) (props i)
  ++ pageClampEffect (committed i) (props i) (state i).

(** The queued updates are applied in order: the last one wins. *)
Definition applyUpdates (q : list Z) (st : State) : State :=
  foldl (λ s v, setCurrentPage v s) st q.

(** Commit a render, run its effects, and render again while an effect
    queued a state update. *)
Fixpoint settle (fuel : nat) (i : Instance) : option Instance :=
  match fuel with
  | O => None
  | S fuel' =>
      let q := runEffects i in
      let i' := {| props := props i;
                   state := applyUpdates q (state i);
                   committed := Some (renderDeps (props i) (state i)) |} in
      match q with
      | [] => Some i'
      | _ => settle fuel' i'
      end
  end.

(** What can happen to a mounted table. *)
Inductive Event : Type :=
  | SetProps (p : Props)
  | HeaderClick (col : Column)
  | ToggleRow (row : Row)
  | ToggleAll
  | NextPage
  | PrevPage.

(** The handler of an event: new props and state, and the calls made to
    [onRowSelect]. *)
Definition handle (i : Instance) (e : Event) : Props * State * list Payload :=
  match e with
  | SetProps p => (p, state i, [])
  | HeaderClick col =>
      (props i, handleSort (dataIndex col) (sortable col) (state i), [])
  | ToggleRow row =>
      let r := handleSelectRow (props i) row (state i) in
      (props i, r.1, r.2)
  | ToggleAll =>
      let r := handleSelectAll (props i) (state i) in
      (props i, r.1, r.2)
  | NextPage => (props i, goToNext (props i) (state i), [])
  | PrevPage => (props i, goToPrev (state i), [])
  end.

(** One update step: the handler, then rendering until no effect queues
    an update. *)
Definition step (fuel : nat) (i : Instance) (e : Event)
  : option (Instance * list Payload) :=
  let '(p, st, out) := handle i e in
  i' ← settle fuel {| props := p; state := st; committed := committed i |};
  Some (i', out).

Definition mount (fuel : nat) (p : Props) : option Instance :=
  settle fuel {| props := p; state := initialState; committed := None |}.

Fixpoint run (fuel : nat) (i : Instance) (es : list Event)
  : option (Instance * list Payload) :=
  match es with
  | [] => Some (i, [])
  | e :: es' =>
      '(i', out) ← step fuel i e;
      '(i'', out') ← run fuel i' es';
      Some (i'', out ++ out')
  end.

(** The render at which the update loop comes to rest: the queued updates
    are applied and the render that shows them is committed. *)
Definition afterEffects (i : Instance) : Instance :=
  let st := applyUpdates (runEffects i) (state i) in
  {| props := props i;
     state := st;
     committed := Some (renderDeps (props i) st) |}.

(** An instance between two events: its last render is committed and the
    page it shows exists. *)
Definition atRest (i : Instance) : Prop :=
  committed i = Some (renderDeps (props i) (state i))
  ∧ 1 ≤ currentPage (state i) ≤ totalPages (props i).

(** Page navigation events. *)
Definition isNavigation (e : Event) : bool :=
  match e with
  | NextPage | PrevPage => true
  | _ => false
  end.

(** The events whose handlers call [setSelectedRows]. *)
Definition isSelection (e : Event) : bool :=
  match e with
  | ToggleRow _ | ToggleAll => true
  | _ => false
  end.

(** The parent rendering the table with a new props object. *)
Definition isNewProps (e : Event) : bool :=
  match e with
  | SetProps _ => true
  | _ => false
  end.

(** An event that does not bring a page size of 0, where
    [data.length / itemsPerPage] is [Infinity] or [NaN]. *)
Definition nonzeroPageSize (e : Event) : Prop :=
  match e with
  | SetProps p => itemsPerPage p ≠ 0
  | _ => True
  end.

(** The props with another row sequence. *)
Definition withData (p : Props) (d : list Row) : Props :=
  {| data := d;
     loading := loading p;
     selectable := selectable p;
     selectionMode := selectionMode p;
     onRowSelect := onRowSelect p;
     itemsPerPage := itemsPerPage p |}.

End DataTable.

(** ** What the table renders (lines 124-271) *)

Section DataTableView.
Context `{!Collator}.

(** The footer: "Previous", "Page x of y", "Next". *)
Record Pager : Type := mkPager {
  prevDisabled : bool;
  shownPage : Z;
  shownTotal : Z;
  nextDisabled : bool;
}.

(** The table proper: the select-all box with its [checked] attribute when
    it is rendered, the body rows with their [selected] flag, and the
    footer when it is rendered. *)
Record TableView : Type := mkTableView {
  selectAllBox : option bool;
  bodyRows : list (Row * bool);
  pager : option Pager;
}.

(** The three return statements of the component. *)
Inductive View : Type :=
  | Skeleton (placeholders : nat)
  | EmptyState
  | Table (t : TableView).

(** [selectedRows.size === data.length && data.length > 0] *)
Definition selectAllChecked (p : Props) (st : State) : bool :=
  bool_decide (Z.of_nat (size (selectedRows st)) = len (data p))
  && (0 <? len (data p)).

Definition renderPager (p : Props) (st : State) : option Pager :=
  if 1 <? totalPages p
  then Some {| prevDisabled := bool_decide (currentPage st = 1);
               shownPage := currentPage st;
               shownTotal := totalPages p;
               nextDisabled := bool_decide (currentPage st = totalPages p) |}
  else None.

Definition renderTable (p : Props) (st : State) : TableView :=
  {| selectAllBox :=
       if selectable p && bool_decide (selectionMode p = multiple)
       then Some (selectAllChecked p st)
       else None;
     bodyRows :=
       (λ row, (row, bool_decide (id row ∈ selectedRows st)))
         <$> paginatedData p st;
     pager := renderPager p st |}.

(** [Array.from({ length: Math.min(5, itemsPerPage) })] has no element
    when the length is negative. *)
Definition render (i : Instance) : View :=
  if loading (props i)
  then Skeleton (Z.to_nat (Z.min 5 (itemsPerPage (props i))))
  else if bool_decide (len (data (props i)) = 0) then EmptyState
  else Table (renderTable (props i) (state i)).

(** The events the rendered controls can fire: a new props object can
    always arrive; everything else needs the table, a row box needs
    [selectable] and a row of the page, select-all needs its box, and a
    footer button needs the footer and must not be disabled. *)
Definition offered (i : Instance) (e : Event) : bool :=
  match e, render i with
  | SetProps _, _ => true
  | HeaderClick _, Table _ => true
  | ToggleRow row, Table t =>
      selectable (props i) && bool_decide (row ∈ (bodyRows t).*1)
  | ToggleAll, Table t => bool_decide (is_Some (selectAllBox t))
  | NextPage, Table t =>
      match pager t with
      | Some pg => negb (nextDisabled pg)
      | None => false
      end
  | PrevPage, Table t =>
      match pager t with
      | Some pg => negb (prevDisabled pg)
      | None => false
      end
  | _, _ => false
  end.

(** [onKeyDown] of a header cell (lines 194-196): Enter and the space bar
    sort by a sortable column. *)
Definition handleHeaderKey (col : Column) (k : string) (st : State) : State :=
  if negb (notSortable (sortable col))
     && (bool_decide (k = "Enter"%string) || bool_decide (k = " "%string))
  then handleSort (dataIndex col) (sortable col) st
  else st.

(** Runs in which every event is one the rendered table offers. *)
Fixpoint runOffered (fuel : nat) (i : Instance) (es : list Event)
  : option (Instance * list Payload) :=
  match es with
  | [] => Some (i, [])
  | e :: es' =>
      if offered i e
      then '(i', out) ← step fuel i e;
           '(i'', out') ← runOffered fuel i' es';
           Some (i'', out ++ out')
      else None
  end.

End DataTableView.

(** ** InputField: the form (Components/InputField/InputField.tsx)

    The form keeps five [useState] cells and one effect that copies a
    string [value] prop into the full-name field.  The class names and the
    icons are left out; the attributes that decide what the user can do
    are kept.  A non-ASCII character of a JS string is held as its UTF-8
    bytes.  The rest props spread onto the full-name input are taken not
    to replace its [onChange]. *)

Module InputField.

(** [InputFieldProps].  [value] is [Some s] when [typeof value ===
    'string'] and [None] for every other value; [disabled], [loading] and
    [invalid] are what [!!] makes of them; [onClear] records whether the
    optional callback was supplied. *)
Record Props : Type := mkProps {
  value : option string;
  disabled : bool;
  loading : bool;
  invalid : bool;
  errorMessage : option string;
  onClear : bool;
}.

Record State : Type := mkState {
  fullname : string;
  username : string;
  password : string;
  showPassword : bool;
  isHuman : bool;
}.

(** The lazy initialiser of [fullname] and the literals of the others. *)
Definition initialState (p : Props) : State :=
  {| fullname := default ""%string (value p);
     username := "";
     password := "";
     showPassword := false;
     isHuman := false |}.

Definition setFullname (s : string) (st : State) : State :=
  {| fullname := s;
     username := username st;
     password := password st;
     showPassword := showPassword st;
     isHuman := isHuman st |}.

Definition setUsername (s : string) (st : State) : State :=
  {| fullname := fullname st;
     username := s;
     password := password st;
     showPassword := showPassword st;
     isHuman := isHuman st |}.

Definition setPassword (s : string) (st : State) : State :=
  {| fullname := fullname st;
     username := username st;
     password := s;
     showPassword := showPassword st;
     isHuman := isHuman st |}.

Definition setShowPassword (b : bool) (st : State) : State :=
  {| fullname := fullname st;
     username := username st;
     password := password st;
     showPassword := b;
     isHuman := isHuman st |}.

Definition setIsHuman (b : bool) (st : State) : State :=
  {| fullname := fullname st;
     username := username st;
     password := password st;
     showPassword := showPassword st;
     isHuman := b |}.

(** [!!s] for an optional string: [undefined] and [''] are falsy. *)
Definition truthy (s : option string) : bool :=
  match s with
  | Some s => negb (String.eqb s "")
  | None => false
  end.

Definition hasError (p : Props) : bool := invalid p || truthy (errorMessage p).

Definition isDisabled (p : Props) : bool := disabled p || loading p.

(** What the form does to the outside: it calls [onClear] or it opens an
    alert box. *)
Inductive Output : Type :=
  | ClearCalled
  | Alert (message : string).

Definition callOnClear (p : Props) : list Output :=
  if onClear p then [ClearCalled] else [].

Definition handleClearFullname (p : Props) (st : State) : State * list Output :=
  (setFullname "" st, callOnClear p).

Definition newline : string := String (Ascii.ascii_of_nat 10) EmptyString.

(** The template literal of the submit button. *)
Definition submitMessage (st : State) : string :=
  ("Submitting:" ++ newline
   ++ "Fullname: " ++ fullname st ++ newline
   ++ "Username: " ++ username st ++ newline
   ++ "Password: "
   ++ (if String.eqb (password st) "" then "(empty)" else "•••••••") ++ newline
   ++ "Human: " ++ (if isHuman st then "true" else "false"))%string.

Definition handleReset (p : Props) (st : State) : State * list Output :=
  (setIsHuman false (setPassword "" (setUsername "" (setFullname "" st))),
   callOnClear p).

(** The attributes of the rendered form that carry logic. *)
Record View : Type := mkView {
  fullnameShown : string;
  ariaInvalid : bool;
  inputsDisabled : bool;
  clearShown : bool;
  errorShown : option string;
  passwordType : string;
  toggleLabel : string;
  humanChecked : bool;
  submitDisabled : bool;
  submitLabel : string;
  resetDisabled : bool;
}.

Definition render (p : Props) (st : State) : View :=
  {| fullnameShown := fullname st;
     ariaInvalid := hasError p;
     inputsDisabled := isDisabled p;
     clearShown := negb (String.eqb (fullname st) "") && negb (isDisabled p);
     errorShown := if truthy (errorMessage p) then errorMessage p else None;
     passwordType := if showPassword st then "text" else "password";
     toggleLabel := if showPassword st then "Hide password" else "Show password";
     humanChecked := isHuman st;
     submitDisabled := negb (isHuman st) || loading p;
     submitLabel := if loading p then "Submitting..." else "Submit";
     resetDisabled := isDisabled p |}.

(** A mounted form; [committedValue] is the dependency array [[value]]
    of the last committed render. *)
Record Instance : Type := mkInstance {
  props : Props;
  state : State;
  committedValue : option (option string);
}.

(** The effect: [if (typeof value === 'string') setFullname(value)], run
    after the first render and whenever [value] changed.  The result is
    the list of strings passed to [setFullname]. *)
Definition valueEffect (i : Instance) : list string :=
  let body := match value (props i) with
              | Some s => [s]
              | None => []
              end in
  match committedValue i with
  | Some v => if decide (v = value (props i)) then [] else body
  | None => body
  end.

Definition applyUpdates (q : list string) (st : State) : State :=
  foldl (λ s v, setFullname v s) st q.

Fixpoint settle (fuel : nat) (i : Instance) : option Instance :=
  match fuel with
  | O => None
  | S fuel' =>
      let q := valueEffect i in
      let i' := {| props := props i;
                   state := applyUpdates q (state i);
                   committedValue := Some (value (props i)) |} in
      match q with
      | [] => Some i'
      | _ => settle fuel' i'
      end
  end.

Inductive Event : Type :=
  | SetProps (p : Props)
  | TypeFullname (s : string)
  | TypeUsername (s : string)
  | TypePassword (s : string)
  | ToggleShow
  | CheckHuman (b : bool)
  | ClickClear
  | ClickSubmit
  | ClickReset.

Definition handle (i : Instance) (e : Event) : Props * State * list Output :=
  match e with
  | SetProps p => (p, state i, [])
  | TypeFullname s => (props i, setFullname s (state i), [])
  | TypeUsername s => (props i, setUsername s (state i), [])
  | TypePassword s => (props i, setPassword s (state i), [])
  | ToggleShow =>
      (props i, setShowPassword (negb (showPassword (state i))) (state i), [])
  | CheckHuman b => (props i, setIsHuman b (state i), [])
  | ClickClear =>
      let r := handleClearFullname (props i) (state i) in (props i, r.1, r.2)
  | ClickSubmit => (props i, state i, [Alert (submitMessage (state i))])
  | ClickReset =>
      let r := handleReset (props i) (state i) in (props i, r.1, r.2)
  end.

Definition step (fuel : nat) (i : Instance) (e : Event)
  : option (Instance * list Output) :=
  let '(p, st, out) := handle i e in
  i' ← settle fuel {| props := p; state := st;
                      committedValue := committedValue i |};
  Some (i', out).

Definition mount (fuel : nat) (p : Props) : option Instance :=
  settle fuel {| props := p; state := initialState p; committedValue := None |}.

(** The events the rendered controls can fire: the inputs, the eye
    button, the checkbox and Reset carry [disabled={isDisabled}], a click
    on the checkbox reports the opposite of what it shows, the clear
    button exists only while it is shown, and Submit carries
    [disabled={!isHuman || loading}]. *)
Definition offered (i : Instance) (e : Event) : bool :=
  let v := render (props i) (state i) in
  match e with
  | SetProps _ => true
  | TypeFullname _ | TypeUsername _ | TypePassword _
  | ToggleShow => negb (inputsDisabled v)
  | CheckHuman b =>
      negb (inputsDisabled v) && bool_decide (b = negb (humanChecked v))
  | ClickClear => clearShown v
  | ClickSubmit => negb (submitDisabled v)
  | ClickReset => negb (resetDisabled v)
  end.

(** Runs in which every event is one the rendered form offers. *)
Fixpoint runOffered (fuel : nat) (i : Instance) (es : list Event)
  : option (Instance * list Output) :=
  match es with
  | [] => Some (i, [])
  | e :: es' =>
      if offered i e
      then '(i', out) ← step fuel i e;
           '(i'', out') ← runOffered fuel i' es';
           Some (i'', out ++ out')
      else None
  end.

(** A form between two events. *)
Definition atRest (i : Instance) : Prop :=
  committedValue i = Some (value (props i)).

(** The props an event leaves the form with. *)
Definition propsAfter (p : Props) (e : Event) : Props :=
  match e with
  | SetProps p' => p'
  | _ => p
  end.

Definition isAlert (o : Output) : bool :=
  match o with
  | Alert _ => true
  | ClearCalled => false
  end.

End InputField.

(** ** Sample tables *)

(** A stand-in for the runtime's collator on ASCII strings.  With
    sensitivity [base] or [accent] the letters are compared without their
    case; with [numeric] a run of digits is compared by its value (the
    run is stripped of leading zeros and preceded by its length, so that a
    shorter run comes first); what is left is compared by code units. *)
Definition isDigit (c : Ascii.ascii) : bool :=
  ((48 <=? Ascii.nat_of_ascii c) && (Ascii.nat_of_ascii c <=? 57))%nat.

Definition foldCase (c : Ascii.ascii) : Ascii.ascii :=
  if ((65 <=? Ascii.nat_of_ascii c) && (Ascii.nat_of_ascii c <=? 90))%nat
  then Ascii.ascii_of_nat (Ascii.nat_of_ascii c + 32)
  else c.

Fixpoint foldCases (s : string) : string :=
  match s with
  | EmptyString => EmptyString
  | String c s' => String (foldCase c) (foldCases s')
  end.

Fixpoint stripZeros (s : string) : string :=
  match s with
  | String c s' => if Ascii.eqb c (Ascii.ascii_of_nat 48) then stripZeros s' else s
  | EmptyString => EmptyString
  end.

Definition flushRun (run : string) : string :=
  match run with
  | EmptyString => EmptyString
  | _ => String (Ascii.ascii_of_nat (String.length (stripZeros run))) (stripZeros run)
  end.

Fixpoint numericKey (run : string) (s : string) : string :=
  match s with
  | EmptyString => flushRun run
  | String c s' =>
      if isDigit c then numericKey (run ++ String c EmptyString) s'
      else (flushRun run ++ String c (numericKey EmptyString s'))%string
  end.

Definition collationKey (o : CollatorOptions) (s : string) : string :=
  let folded := match sensitivity o with
                | SensBase | SensAccent => foldCases s
                | SensCase | SensVariant => s
                end in
  if numeric o then numericKey EmptyString folded else folded.

Definition codeUnitOrder (a b : string) : Z :=
  match String.compare a b with
  | Lt => -1
  | Eq => 0
  | Gt => 1
  end.

Definition asciiCollator : Collator :=
  {| localeCompare o a b := codeUnitOrder (collationKey o a) (collationKey o b) |}.

(** The rows and columns of the component's test suite. *)
Definition mockUser (i : Z) (name : string) (age : Z) (status : string) : Row :=
  {| id := IdNum i;
     fields := list_to_map [("name"%string, VStr name);
                            ("age"%string, VNum age);
                            ("status"%string, VStr status)] |}.

Definition alice : Row := mockUser 1 "Alice" 30 "active".
Definition bob : Row := mockUser 2 "Bob" 25 "inactive".
Definition charlie : Row := mockUser 3 "Charlie" 35 "active".
Definition diana : Row := mockUser 4 "Diana" 40 "inactive".

Definition mockData : list Row := [alice; bob; charlie].

Definition extendedData : list Row := mockData ++ [diana].

Definition nameColumn : Column :=
  {| col_key := "name"; title := "Name"; dataIndex := "name"; sortable := Some true |}.

Definition ageColumn : Column :=
  {| col_key := "age"; title := "Age"; dataIndex := "age"; sortable := Some true |}.

Definition statusColumn : Column :=
  {| col_key := "status"; title := "Status"; dataIndex := "status"; sortable := None |}.

Definition byAge (d : Direction) : SortConfig := {| key := "age"; direction := d |}.

(** Four rows, two of each age. *)
Definition twins : list Row :=
  [mockUser 1 "Ann" 30 "active"; mockUser 2 "Ben" 25 "active";
   mockUser 3 "Cho" 30 "active"; mockUser 4 "Dov" 25 "active"].

(** Ten rows with ids 1 to 10. *)
Definition tenRows : list Row :=
  (λ n, mockUser n "row" (20 + n) "active") <$> seqZ 1 10.

(** A selectable table with a callback. *)
Definition tableProps (d : list Row) (mode : SelectionMode) (perPage : Z) : Props :=
  {| data := d;
     loading := false;
     selectable := true;
     selectionMode := mode;
     onRowSelect := true;
     itemsPerPage := perPage |}.

(** The instance right after mounting. *)
Definition mounted (p : Props) : Instance :=
  {| props := p;
     state := initialState;
     committed := Some (renderDeps p initialState) |}.

(** Row 1 selected on a table of [mockData]. *)
Definition aliceSelected (mode : SelectionMode) : Instance :=
  {| props := tableProps mockData mode 2;
     state := setSelectedRows {[ IdNum 1 ]} initialState;
     committed := Some (renderDeps (tableProps mockData mode 2) initialState) |}.

(** A table in single mode on which rows 1 and 2 are selected. *)
Definition twoSelected : Instance :=
  {| props := tableProps mockData single 2;
     state := setSelectedRows {[ IdNum 1; IdNum 2 ]} initialState;
     committed := Some (renderDeps (tableProps mockData single 2) initialState) |}.





(** A row without an age, and a table that holds it. *)
Definition noAge : Row :=
  {| id := IdNum 5; fields := list_to_map [("name"%string, VStr "Eve")] |}.

Definition withGaps : list Row := [alice; noAge; bob].

(** Two rows under one id. *)
Definition clones : list Row := [alice; mockUser 1 "Alia" 31 "active"].

(** The footer of a table of ten rows, four to a page, on page 1. *)
Definition firstOfThree : Pager :=
  {| prevDisabled := true; shownPage := 1; shownTotal := 3; nextDisabled := false |}.

(** ** Sample forms *)

Definition signUp : InputField.Props :=
  {| InputField.value := Some "Jane Doe"%string;
     InputField.disabled := false;
     InputField.loading := false;
     InputField.invalid := false;
     InputField.errorMessage := None;
     InputField.onClear := true |}.

Definition locked (v : option string) : InputField.Props :=
  {| InputField.value := v;
     InputField.disabled := true;
     InputField.loading := false;
     InputField.invalid := false;
     InputField.errorMessage := None;
     InputField.onClear := true |}.

(** The sign-up form after some typing, with the box checked. *)
Definition filledIn : InputField.Instance :=
  {| InputField.props := signUp;
     InputField.state :=
       {| InputField.fullname := "Jane D";
          InputField.username := "jane";
          InputField.password := "hunter2";
          InputField.showPassword := true;
          InputField.isHuman := true |};
     InputField.committedValue := Some (Some "Jane Doe"%string) |}.

(** * Properties *)

(** ** The stable sort *)

Section sort_facts.
Context {A : Type} (cmp : A → A → Z).

Lemma insert_Permutation x l : insert cmp x l ≡ₚ x :: l.
Proof.
  induction l as [|y l IH]; simpl; [done|].
  destruct (0 <? cmp x y); [|done].
  rewrite IH. apply perm_swap.
Qed.

Lemma sort_Permutation l : sort cmp l ≡ₚ l.
Proof.
  induction l as [|x l IH]; simpl; [done|].
  by rewrite insert_Permutation, IH.
Qed.

Lemma sort_length l : length (sort cmp l) = length l.
Proof. apply Permutation_length, sort_Permutation. Qed.

Lemma elem_of_sort x l : x ∈ sort cmp l ↔ x ∈ l.
Proof. by rewrite sort_Permutation. Qed.

Lemma Consistent_weaken (l k : list A) :
  k ⊆ l → Consistent cmp l → Consistent cmp k.
Proof. intros Hk [H1 H2 H3 H4 H5]. split; eauto 10. Qed.

(** An already ordered array is left as it is. *)
Lemma sort_sorted l : Sorted (cmp_le cmp) l → sort cmp l = l.
Proof.
  induction 1 as [|x l Hl IH Hx]; simpl; [done|].
  rewrite IH. destruct Hx as [|y l Hxy]; simpl; [done|].
  unfold cmp_le in Hxy.
  destruct (Z.ltb_spec 0 (cmp x y)); [lia|done].
Qed.

Section consistent.
Context (L : list A) (HL : Consistent cmp L).

Lemma cf_gt_lt a b : a ∈ L → b ∈ L → 0 < cmp a b → cmp b a < 0.
Proof.
  intros Ha Hb Hab.
  destruct (Z.lt_trichotomy (cmp b a) 0) as [?|[Hba|Hba]]; [done| |].
  - apply (cf_sym _ _ HL) in Hba; [lia|done..].
  - pose proof (cf_gt_trans _ _ HL a b a Ha Hb Ha Hab Hba) as Haa.
    rewrite (cf_refl _ _ HL a Ha) in Haa. lia.
Qed.

Lemma cf_lt_gt a b : a ∈ L → b ∈ L → cmp a b < 0 → 0 < cmp b a.
Proof.
  intros Ha Hb Hab.
  destruct (Z.lt_trichotomy (cmp b a) 0) as [Hba|[Hba|?]]; [| |done].
  - pose proof (cf_lt_trans _ _ HL a b a Ha Hb Ha Hab Hba) as Haa.
    rewrite (cf_refl _ _ HL a Ha) in Haa. lia.
  - apply (cf_sym _ _ HL) in Hba; [lia|done..].
Qed.

Lemma cmp_le_trans a b c :
  a ∈ L → b ∈ L → c ∈ L → cmp_le cmp a b → cmp_le cmp b c → cmp_le cmp a c.
Proof.
  unfold cmp_le. intros Ha Hb Hc Hab Hbc.
  destruct (Z.lt_trichotomy (cmp a c) 0) as [?|[?|Hac]]; [lia..|].
  exfalso.
  pose proof (cf_gt_lt a c Ha Hc Hac) as Hca.
  destruct (Z.eq_dec (cmp a b) 0) as [Eab|Nab],
           (Z.eq_dec (cmp b c) 0) as [Ebc|Nbc].
  - pose proof (cf_eq_trans _ _ HL a b c Ha Hb Hc Eab Ebc). lia.
  - pose proof (cf_lt_trans _ _ HL b c a Hb Hc Ha ltac:(lia) Hca) as Hba.
    apply (cf_sym _ _ HL) in Eab; [lia|done..].
  - pose proof (cf_lt_trans _ _ HL c a b Hc Ha Hb Hca ltac:(lia)) as Hcb.
    apply (cf_sym _ _ HL) in Ebc; [lia|done..].
  - pose proof (cf_lt_trans _ _ HL a b c Ha Hb Hc ltac:(lia) ltac:(lia)). lia.
Qed.

Lemma insert_StronglySorted x l :
  x ∈ L → l ⊆ L →
  StronglySorted (cmp_le cmp) l → StronglySorted (cmp_le cmp) (insert cmp x l).
Proof.
  intros Hx Hl Hs. induction Hs as [|y l Hs IH Hy]; simpl.
  - repeat constructor.
  - assert (y ∈ L) as HyL by set_solver.
    assert (l ⊆ L) as HlL by set_solver.
    destruct (Z.ltb_spec 0 (cmp x y)) as [Hxy|Hxy].
    + constructor; [by apply IH|].
      rewrite insert_Permutation. constructor; [|done].
      unfold cmp_le. pose proof (cf_gt_lt x y Hx HyL Hxy). lia.
    + constructor; [by constructor|].
      constructor; [done|].
      rewrite Forall_forall in Hy |- *. intros z Hz.
      apply (cmp_le_trans x y z); auto.
Qed.

Lemma sort_StronglySorted l : l ⊆ L → StronglySorted (cmp_le cmp) (sort cmp l).
Proof.
  induction l as [|x l IH]; simpl; intros Hl; [constructor|].
  apply insert_StronglySorted; [set_solver| |apply IH; set_solver].
  intros z. rewrite elem_of_sort. set_solver.
Qed.

(** Insertion never makes an element overtake one it compares equal to. *)
Lemma filter_insert_stable a x l :
  a ∈ L → x ∈ L → l ⊆ L →
  filter (λ y, cmp a y = 0) (insert cmp x l)
  = filter (λ y, cmp a y = 0) (x :: l).
Proof.
  intros Ha Hx Hl. induction l as [|y l IH]; simpl; [done|].
  assert (y ∈ L) as HyL by set_solver.
  destruct (Z.ltb_spec 0 (cmp x y)) as [Hxy|Hxy]; [|done].
  rewrite !filter_cons. rewrite IH by set_solver. rewrite filter_cons.
  destruct (decide (cmp a y = 0)) as [Hay|]; [|done].
  destruct (decide (cmp a x = 0)) as [Hax|]; [|done].
  exfalso. apply (cf_sym _ _ HL) in Hax; [|done..].
  pose proof (cf_eq_trans _ _ HL x a y Hx Ha HyL Hax Hay). lia.
Qed.

Lemma filter_sort_stable a l :
  a ∈ L → l ⊆ L →
  filter (λ y, cmp a y = 0) (sort cmp l) = filter (λ y, cmp a y = 0) l.
Proof.
  intros Ha. induction l as [|x l IH]; simpl; intros Hl; [done|].
  rewrite filter_insert_stable; [|done|set_solver|].
  - rewrite !filter_cons, IH; [done|set_solver].
  - intros z. rewrite elem_of_sort. set_solver.
Qed.

End consistent.

(** Two stable, ordered arrangements of the same rows are the same
    array: on a consistent comparator a stable sort has one possible
    result. *)
Lemma sorted_stable_unique L l1 l2 :
  Consistent cmp L → l1 ⊆ L → l1 ≡ₚ l2 →
  StronglySorted (cmp_le cmp) l1 → StronglySorted (cmp_le cmp) l2 →
  (∀ a, a ∈ L → filter (λ y, cmp a y = 0) l1 = filter (λ y, cmp a y = 0) l2) →
  l1 = l2.
Proof.
  intros HL. revert l2.
  induction l1 as [|x l1 IH]; intros l2 Hsub Hperm Hs1 Hs2 Hst.
  { by apply Permutation_nil_l in Hperm. }
  destruct l2 as [|y l2]; [by apply Permutation_nil_r in Hperm|].
  apply StronglySorted_inv in Hs1 as [Hs1 Hx].
  apply StronglySorted_inv in Hs2 as [Hs2 Hy].
  rewrite Forall_forall in Hx, Hy.
  assert (x ∈ L) as HxL by set_solver.
  assert (y ∈ L) as HyL by (apply Hsub; rewrite Hperm; set_solver).
  assert (cmp x x = 0) as Hxx by by apply (cf_refl _ _ HL).
  assert (cmp x y = 0) as Hxy.
  { assert (cmp x y ≤ 0) as H1.
    { assert (y ∈ x :: l1) as [->|Hin]%elem_of_cons
        by (rewrite Hperm; set_solver); [lia|by apply Hx]. }
    assert (cmp y x ≤ 0) as H2.
    { assert (x ∈ y :: l2) as [->|Hin]%elem_of_cons
        by (rewrite <- Hperm; set_solver); [lia|by apply Hy]. }
    destruct (Z.eq_dec (cmp x y) 0) as [|Hne]; [done|].
    pose proof (cf_lt_gt L HL x y HxL HyL ltac:(lia)). lia. }
  assert (x = y) as <-.
  { pose proof (Hst x HxL) as Hf.
    rewrite !filter_cons, decide_True, decide_True in Hf by done.
    by injection Hf. }
  f_equal. apply IH; [set_solver|by apply Permutation_cons_inv in Hperm|done..|].
  intros a Ha. pose proof (Hst a Ha) as Hf. rewrite !filter_cons in Hf.
  destruct (decide (cmp a x = 0)); [by injection Hf|done].
Qed.

(** Hence [sort] returns what every stable sort returns. *)
Lemma sort_unique l l' :
  Consistent cmp l → l' ≡ₚ l → StronglySorted (cmp_le cmp) l' →
  (∀ a, a ∈ l → filter (λ y, cmp a y = 0) l' = filter (λ y, cmp a y = 0) l) →
  l' = sort cmp l.
Proof.
  intros HL Hperm Hs Hst.
  apply (sorted_stable_unique l); [done|..].
  - intros z. by rewrite Hperm.
  - by rewrite sort_Permutation.
  - done.
  - by apply (sort_StronglySorted l HL).
  - intros a Ha. rewrite Hst by done. symmetry.
    by apply (filter_sort_stable l HL).
Qed.

Lemma sort_idempotent l :
  Consistent cmp l → sort cmp (sort cmp l) = sort cmp l.
Proof.
  intros HL. apply sort_sorted, StronglySorted_Sorted.
  by apply (sort_StronglySorted l HL).
Qed.


End sort_facts.

(** ** The comparator *)

Section compare_facts.
Context `{!Collator}.

Lemma compare_nullish_both a b :
  isNullish a = true → isNullish b = true → compare a b = 0.
Proof. unfold compare. by intros -> ->. Qed.

Lemma compare_nullish_l a b :
  isNullish a = true → isNullish b = false → compare a b = -1.
Proof. unfold compare. by intros -> ->. Qed.

Lemma compare_nullish_r a b :
  isNullish a = false → isNullish b = true → compare a b = 1.
Proof. unfold compare. by intros -> ->. Qed.

Lemma compare_numbers x y : compare (VNum x) (VNum y) = x - y.
Proof. done. Qed.

Lemma compare_strings a b :
  isNullish a = false → isNullish b = false →
  (∀ x y, ¬ (a = VNum x ∧ b = VNum y)) →
  compare a b
  = localeCompare {| numeric := true; sensitivity := SensBase |}
      (toString a) (toString b).
Proof.
  unfold compare. intros -> -> Hn. simpl.
  destruct a, b; try done. by destruct (Hn n n0).
Qed.

Lemma rowCompare_asc k x y :
  rowCompare {| key := k; direction := asc |} x y
  = compare (getField x k) (getField y k).
Proof. done. Qed.

Lemma rowCompare_desc k x y :
  rowCompare {| key := k; direction := desc |} x y
  = - compare (getField x k) (getField y k).
Proof. done. Qed.

(** Negating a consistent comparator keeps it consistent. *)
Lemma Consistent_opp {A} (cmp : A → A → Z) l :
  Consistent cmp l → Consistent (λ x y, - cmp x y) l.
Proof.
  intros HL. split.
  - intros a Ha. rewrite (cf_refl _ _ HL a Ha). lia.
  - intros a b Ha Hb Hab.
    assert (cmp a b = 0) as E by lia.
    rewrite (cf_sym _ _ HL a b Ha Hb E). lia.
  - intros a b c Ha Hb Hc Hab Hbc.
    rewrite (cf_eq_trans _ _ HL a b c Ha Hb Hc); lia.
  - intros a b c Ha Hb Hc Hab Hbc.
    pose proof (cf_gt_trans _ _ HL a b c Ha Hb Hc). lia.
  - intros a b c Ha Hb Hc Hab Hbc.
    pose proof (cf_lt_trans _ _ HL a b c Ha Hb Hc). lia.
Qed.

(** On a column of numbers, with or without gaps, the comparator is
    consistent whatever the collator does. *)
Lemma compare_numeric_consistent (k : string) (d : list Row) :
  numericColumn k d →
  Consistent (λ x y, compare (getField x k) (getField y k)) d.
Proof.
  intros Hnum.
  assert (∀ r, r ∈ d →
            isNullish (getField r k) = true ∨ ∃ n, getField r k = VNum n) as Hc.
  { intros r Hr. specialize (Hnum r Hr). unfold numericValue in Hnum.
    destruct (getField r k); simpl in *; eauto; done. }
  split.
  - intros a Ha. destruct (Hc a Ha) as [E|[n E]].
    + by apply compare_nullish_both.
    + rewrite E, compare_numbers. lia.
  - intros a b Ha Hb.
    destruct (Hc a Ha) as [Ea|[x Ea]], (Hc b Hb) as [Eb|[y Eb]];
      unfold compare; rewrite ?Ea, ?Eb; simpl; lia.
  - intros a b c Ha Hb Hc'.
    destruct (Hc a Ha) as [Ea|[x Ea]], (Hc b Hb) as [Eb|[y Eb]],
             (Hc c Hc') as [Ec|[z Ec]];
      unfold compare; rewrite ?Ea, ?Eb, ?Ec; simpl; lia.
  - intros a b c Ha Hb Hc'.
    destruct (Hc a Ha) as [Ea|[x Ea]], (Hc b Hb) as [Eb|[y Eb]],
             (Hc c Hc') as [Ec|[z Ec]];
      unfold compare; rewrite ?Ea, ?Eb, ?Ec; simpl; lia.
  - intros a b c Ha Hb Hc'.
    destruct (Hc a Ha) as [Ea|[x Ea]], (Hc b Hb) as [Eb|[y Eb]],
             (Hc c Hc') as [Ec|[z Ec]];
      unfold compare; rewrite ?Ea, ?Eb, ?Ec; simpl; lia.
Qed.

Lemma rowCompare_numeric_consistent (c : SortConfig) (d : list Row) :
  numericColumn (key c) d → Consistent (rowCompare c) d.
Proof.
  intros Hnum. pose proof (compare_numeric_consistent _ _ Hnum) as HL.
  destruct c as [k []]; [done|]. by apply Consistent_opp in HL.
Qed.

(** On a column without numbers the comparator is as consistent as the
    collator. *)
Lemma compare_text_consistent `{!ConsistentCollator} (k : string) (d : list Row) :
  textColumn k d →
  Consistent (λ x y, compare (getField x k) (getField y k)) d.
Proof.
  intros Htext.
  assert (∀ a b, a ∈ d → b ∈ d →
            isNullish (getField a k) = false → isNullish (getField b k) = false →
            compare (getField a k) (getField b k)
            = localeCompare {| numeric := true; sensitivity := SensBase |}
                (toString (getField a k)) (toString (getField b k)))
    as Hlc.
  { intros a b Ha Hb Na Nb. apply compare_strings; [done..|].
    intros x y [E _]. specialize (Htext a Ha). by rewrite E in Htext. }
  split.
  - intros a Ha. destruct (isNullish (getField a k)) eqn:Na.
    + by apply compare_nullish_both.
    + rewrite Hlc by done. apply lc_refl.
  - intros a b Ha Hb.
    destruct (isNullish (getField a k)) eqn:Na,
             (isNullish (getField b k)) eqn:Nb;
      rewrite ?compare_nullish_both, ?(compare_nullish_l _ _ Na Nb),
        ?(compare_nullish_r _ _ Na Nb), ?(compare_nullish_l _ _ Nb Na),
        ?(compare_nullish_r _ _ Nb Na) by done; try lia.
    rewrite !Hlc by done. apply lc_sym.
  - intros a b c Ha Hb Hc'.
    destruct (isNullish (getField a k)) eqn:Na,
             (isNullish (getField b k)) eqn:Nb,
             (isNullish (getField c k)) eqn:Nc;
      rewrite ?compare_nullish_both, ?(compare_nullish_l _ _ Na Nb),
        ?(compare_nullish_r _ _ Na Nb), ?(compare_nullish_l _ _ Nb Nc),
        ?(compare_nullish_r _ _ Nb Nc), ?(compare_nullish_l _ _ Na Nc),
        ?(compare_nullish_r _ _ Na Nc) by done; try lia.
    rewrite !Hlc by done. apply lc_eq_trans.
  - intros a b c Ha Hb Hc'.
    destruct (isNullish (getField a k)) eqn:Na,
             (isNullish (getField b k)) eqn:Nb,
             (isNullish (getField c k)) eqn:Nc;
      rewrite ?compare_nullish_both, ?(compare_nullish_l _ _ Na Nb),
        ?(compare_nullish_r _ _ Na Nb), ?(compare_nullish_l _ _ Nb Nc),
        ?(compare_nullish_r _ _ Nb Nc), ?(compare_nullish_l _ _ Na Nc),
        ?(compare_nullish_r _ _ Na Nc) by done; try lia.
    rewrite !Hlc by done. apply lc_lt_trans.
  - intros a b c Ha Hb Hc'.
    destruct (isNullish (getField a k)) eqn:Na,
             (isNullish (getField b k)) eqn:Nb,
             (isNullish (getField c k)) eqn:Nc;
      rewrite ?compare_nullish_both, ?(compare_nullish_l _ _ Na Nb),
        ?(compare_nullish_r _ _ Na Nb), ?(compare_nullish_l _ _ Nb Nc),
        ?(compare_nullish_r _ _ Nb Nc), ?(compare_nullish_l _ _ Na Nc),
        ?(compare_nullish_r _ _ Na Nc) by done; try lia.
    rewrite !Hlc by done. apply lc_gt_trans.
Qed.

(** A column of one kind, numbers or text, with or without gaps, is
    sorted by a consistent comparator in either direction. *)
Lemma rowCompare_consistent `{!ConsistentCollator} (c : SortConfig) (d : list Row) :
  numericColumn (key c) d ∨ textColumn (key c) d → Consistent (rowCompare c) d.
Proof.
  intros [Hn|Ht]; [by apply rowCompare_numeric_consistent|].
  pose proof (compare_text_consistent _ _ Ht) as HL.
  destruct c as [k []]; [done|]. by apply Consistent_opp in HL.
Qed.

End compare_facts.

(** ** The sorted view *)

Section sorted_view.
Context `{!Collator}.

Lemma sortedData_Permutation d sc : sortedData d sc ≡ₚ d.
Proof. destruct sc; simpl; [apply sort_Permutation|done]. Qed.

Lemma sortedData_length d sc : len (sortedData d sc) = len d.
Proof. unfold len. by rewrite sortedData_Permutation. Qed.





(** X26: on a comparator that is consistent on the rows the engine does
    not matter: a sort that meets ECMAScript's contract returns the array
    that the insertion sort returns, and sorting that array again changes
    nothing. *)
Theorem conforming_sort_agrees
    (srt : (Row → Row → Z) → list Row → list Row)
    (d : list Row) (sc : option SortConfig) :
  ConformingSort srt →
  (∀ c, sc = Some c → Consistent (rowCompare c) d) →
  sortedDataWith srt d sc = sortedData d sc
  ∧ sortedDataWith srt (sortedDataWith srt d sc) sc = sortedDataWith srt d sc.
Proof.
  intros Hs Hc.
  assert (∀ c l, Consistent (rowCompare c) l →
            srt (rowCompare c) l = sort (rowCompare c) l) as Heq.
  { intros c l Hl. apply sort_unique; [done|by apply cs_perm|by apply cs_sorted|].
    intros a Ha. by apply cs_stable. }
  destruct sc as [c|]; simpl; [|done].
  specialize (Hc c eq_refl).
  rewrite (Heq c d Hc). split; [done|].
  rewrite Heq.
  - by apply sort_idempotent.
  - apply (Consistent_weaken _ d); [|done].
    intros z. by rewrite elem_of_sort.
Qed.

End sorted_view.

(** ** Pagination *)

Section pagination.
Context `{!Collator}.

Lemma ceilDiv_spec n p : 0 < p → (ceilDiv n p - 1) * p < n ≤ ceilDiv n p * p.
Proof.
  intros Hp. unfold ceilDiv.
  pose proof (Z.div_mod (- n) p ltac:(lia)).
  pose proof (Z.mod_pos_bound (- n) p Hp). nia.
Qed.

Lemma ceilDiv_unique n p c : 0 < p → (c - 1) * p < n ≤ c * p → ceilDiv n p = c.
Proof. intros Hp Hc. pose proof (ceilDiv_spec n p Hp). nia. Qed.

Lemma totalPages_ge_1 p : 1 ≤ totalPages p.
Proof. unfold totalPages. lia. Qed.

Lemma slice_take_drop {A} (l : list A) a b :
  0 ≤ a ≤ b → slice l a b = take (Z.to_nat (b - a)) (drop (Z.to_nat a) l).
Proof.
  intros Hab. unfold slice, len.
  destruct (Z.ltb_spec a 0); [lia|]. destruct (Z.ltb_spec b 0); [lia|].
  destruct (decide (Z.of_nat (length l) ≤ a)) as [Hge|Hlt].
  - rewrite !drop_ge by lia. by rewrite !take_nil.
  - rewrite (Z.min_l a) by lia.
    destruct (decide (b ≤ Z.of_nat (length l))).
    + by rewrite (Z.min_l b) by lia.
    + rewrite (Z.min_r b) by lia.
      rewrite !take_ge; [done|rewrite length_drop; lia..].
Qed.

Lemma pageSlice_take_drop s k p :
  1 ≤ k → 1 ≤ p →
  pageSlice s k p = take (Z.to_nat p) (drop (Z.to_nat ((k - 1) * p)) s).
Proof.
  intros Hk Hp. unfold pageSlice. rewrite slice_take_drop by nia.
  do 2 f_equal. lia.
Qed.

(** The first [m] pages, laid end to end, are the first [m * p] rows. *)
Lemma concat_pages_take s p (m : nat) :
  1 ≤ p →
  concat ((λ k, pageSlice s k p) <$> seqZ 1 (Z.of_nat m))
  = take (Z.to_nat (Z.of_nat m * p)) s.
Proof.
  intros Hp. induction m as [|m IH].
  - by rewrite seqZ_nil.
  - replace (Z.of_nat (S m)) with (Z.of_nat m + 1) by lia.
    rewrite seqZ_app by lia. rewrite fmap_app, concat_app, IH.
    rewrite (seqZ_cons _ 1), seqZ_nil by lia. simpl. rewrite app_nil_r.
    rewrite pageSlice_take_drop by lia.
    replace (1 + Z.of_nat m - 1) with (Z.of_nat m) by lia.
    rewrite take_take_drop. f_equal. nia.
Qed.

(** C6: for a page size of at least 1 the page count is
    max(1, ceil(n / p)), where ceil(n / p) is the one integer c with
    (c - 1) * p < n <= c * p, and the page slices shown on pages 1 to
    [totalPages], laid end to end, are exactly the sorted view: every row
    is on one page and on no other. *)
Theorem pagination_coverage (p : Props) (st : State) :
  1 ≤ itemsPerPage p →
  (∃ c, (c - 1) * itemsPerPage p < len (data p) ≤ c * itemsPerPage p
        ∧ totalPages p = Z.max 1 c) ∧
  concat ((λ k, paginatedData p (setCurrentPage k st)) <$> seqZ 1 (totalPages p))
  = sortedData (data p) (sortConfig st).
Proof.
  intros Hp. split.
  - exists (ceilDiv (len (data p)) (itemsPerPage p)).
    split; [apply ceilDiv_spec; lia|done].
  - pose proof (totalPages_ge_1 p) as Htp.
    unfold paginatedData. cbn [setCurrentPage sortConfig currentPage].
    set (sc := sortConfig st).
    rewrite <- (Z2Nat.id (totalPages p)) by lia.
    rewrite concat_pages_take by done. apply take_ge.
    pose proof (sortedData_length (data p) sc) as Hlen. unfold len in Hlen.
    pose proof (ceilDiv_spec (len (data p)) (itemsPerPage p) ltac:(lia)) as Hc.
    unfold totalPages, len in *. nia.
Qed.

End pagination.

(** ** The update loop *)

Section update_loop.
Context `{!Collator}.

Lemma applyUpdates_snoc q v st :
  applyUpdates (q ++ [v]) st = setCurrentPage v (applyUpdates q st).
Proof. unfold applyUpdates. by rewrite foldl_app. Qed.

Lemma sortConfig_applyUpdates q st :
  sortConfig (applyUpdates q st) = sortConfig st.
Proof. revert st. induction q as [|v q IH]; intros st; simpl; [done|by rewrite IH]. Qed.

Lemma selectedRows_applyUpdates q st :
  selectedRows (applyUpdates q st) = selectedRows st.
Proof. revert st. induction q as [|v q IH]; intros st; simpl; [done|by rewrite IH]. Qed.

Lemma currentPage_applyUpdates q st :
  currentPage (applyUpdates q st) = default (currentPage st) (last q).
Proof.
  destruct q as [|v q] using rev_ind; [done|].
  by rewrite applyUpdates_snoc, last_snoc.
Qed.

(** Whatever the effects queue ends on an existing page. *)
Lemma runEffects_last i v :
  last (runEffects i) = Some v → 1 ≤ v ≤ totalPages (props i).
Proof.
  pose proof (totalPages_ge_1 (props i)) as Htp.
  unfold runEffects, pageResetEffect, pageClampEffect.
  repeat (case_match; simpl); intros [= <-]; lia.
Qed.

(** The loop needs at most two renders. *)
Lemma settle_spec fuel i : (2 ≤ fuel)%nat → settle fuel i = Some (afterEffects i).
Proof.
  intros Hf. destruct fuel as [|[|fuel]]; [lia..|].
  cbn [settle]. unfold afterEffects.
  destruct (runEffects i) as [|v q] eqn:Hq; [done|].
  set (st := applyUpdates (v :: q) (state i)).
  assert (∃ w, last (runEffects i) = Some w ∧ currentPage st = w) as (w & Hw & Hcp).
  { rewrite Hq. destruct (last (v :: q)) as [w|] eqn:Hl.
    - exists w. split; [done|]. unfold st.
      by rewrite currentPage_applyUpdates, Hl.
    - by apply last_None in Hl. }
  apply runEffects_last in Hw.
  assert (runEffects {| props := props i; state := st;
                        committed := Some (renderDeps (props i) (state i)) |} = [])
    as ->; [|done].
  unfold runEffects, pageResetEffect, pageClampEffect. simpl.
  rewrite decide_True by done. simpl.
  destruct (Z.ltb_spec (totalPages (props i)) (currentPage st)); [lia|].
  by case_decide.
Qed.

Lemma step_spec fuel i e :
  (2 ≤ fuel)%nat →
  step fuel i e =
    Some (afterEffects {| props := (handle i e).1.1;
                          state := (handle i e).1.2;
                          committed := committed i |},
          (handle i e).2).
Proof.
  intros Hf. unfold step. destruct (handle i e) as [[p st] out]. simpl.
  by rewrite settle_spec.
Qed.

Lemma mount_spec fuel p :
  (2 ≤ fuel)%nat →
  mount fuel p =
    Some {| props := p; state := initialState;
            committed := Some (renderDeps p initialState) |}.
Proof.
  intros Hf. unfold mount. rewrite settle_spec by done.
  unfold afterEffects, runEffects, pageResetEffect, pageClampEffect. simpl.
  pose proof (totalPages_ge_1 p).
  by destruct (Z.ltb_spec (totalPages p) 1); [lia|].
Qed.

Lemma mount_atRest fuel p i :
  (2 ≤ fuel)%nat → mount fuel p = Some i → atRest i.
Proof.
  intros Hf. rewrite mount_spec by done. intros [= <-].
  pose proof (totalPages_ge_1 p). split; simpl; [done|lia].
Qed.

(** The handlers keep the page number at 1 or above. *)
Lemma handle_currentPage i e :
  1 ≤ currentPage (state i) → 1 ≤ currentPage (handle i e).1.2.
Proof.
  pose proof (totalPages_ge_1 (props i)).
  destruct e; simpl; try done; try lia.
  - unfold handleSort. by repeat case_match.
  - unfold handleSelectRow. by case_match.
  - unfold handleSelectAll. by repeat case_match.
Qed.

(** 1 <= currentPage <= totalPages holds again after every update. *)
Lemma step_atRest fuel i e i' out :
  (2 ≤ fuel)%nat → atRest i → step fuel i e = Some (i', out) → atRest i'.
Proof.
  intros Hf [Hc Hp]. rewrite step_spec by done. intros [= <- <-].
  pose proof (handle_currentPage i e ltac:(lia)) as Hh.
  set (j := {| props := (handle i e).1.1; state := (handle i e).1.2;
               committed := committed i |}).
  split; [done|]. unfold afterEffects. cbn [props state].
  rewrite currentPage_applyUpdates.
  destruct (last (runEffects j)) as [w|] eqn:Hl; simpl.
  { by apply runEffects_last in Hl. }
  apply last_None in Hl. split; [done|].
  unfold runEffects in Hl. apply app_eq_nil in Hl as [_ Hl].
  unfold pageClampEffect in Hl. subst j. cbn [props state committed] in *.
  rewrite Hc in Hl.
  destruct (Z.ltb_spec (totalPages (handle i e).1.1) (currentPage (handle i e).1.2));
    [|done].
  case_decide as Hd; [|done]. simpl in Hd. lia.
Qed.

End update_loop.

(** ** Events *)

Section events.
Context `{!Collator}.

(** What an update step leaves of the handler's result: the effects only
    ever write the page number. *)
Lemma step_frame fuel i e :
  (2 ≤ fuel)%nat →
  ∃ i', step fuel i e = Some (i', (handle i e).2)
        ∧ props i' = (handle i e).1.1
        ∧ sortConfig (state i') = sortConfig (handle i e).1.2
        ∧ selectedRows (state i') = selectedRows (handle i e).1.2.
Proof.
  intros Hf. eexists. rewrite step_spec by done. split; [done|].
  unfold afterEffects. cbn [props state].
  by rewrite sortConfig_applyUpdates, selectedRows_applyUpdates.
Qed.

Lemma elem_of_allIds (d : list Row) x : x ∈ allIds d ↔ ∃ r, r ∈ d ∧ id r = x.
Proof.
  unfold allIds. rewrite elem_of_list_to_set, list_elem_of_fmap.
  split; intros (r & ? & ?); eauto.
Qed.

Lemma elem_of_materialize (d : list Row) ids r :
  r ∈ materialize d ids ↔ id r ∈ ids ∧ r ∈ d.
Proof. unfold materialize. by rewrite list_elem_of_filter. Qed.

Lemma materialize_all (d : list Row) ids :
  (∀ r, r ∈ d → id r ∈ ids) → materialize d ids = d.
Proof.
  unfold materialize. induction d as [|r d IH]; intros Hd; [done|].
  rewrite filter_cons_True by (apply Hd; set_solver).
  f_equal. apply IH. intros x Hx. apply Hd. set_solver.
Qed.

Lemma materialize_allIds (d : list Row) : materialize d (allIds d) = d.
Proof. apply materialize_all. intros r Hr. apply elem_of_allIds. eauto. Qed.

Lemma materialize_empty (d : list Row) : materialize d ∅ = [].
Proof.
  unfold materialize. induction d as [|r d IH]; [done|].
  by rewrite filter_cons_False by set_solver.
Qed.

(** A set with at most one member that contains [x] is [{x}]. *)
Lemma size_le_1_singleton (X : gset Id) x : (size X ≤ 1)%nat → x ∈ X → X = {[ x ]}.
Proof.
  intros Hs Hx.
  assert (size X ≠ 0%nat) as Hne by (apply size_non_empty_iff; set_solver).
  destruct (size_1_elem_of X) as [y Hy]; [lia|].
  apply leibniz_equiv. set_solver.
Qed.

(** C5: a click on a header that is not sortable changes nothing; a click
    on a sortable header with sort key k, from the unsorted state or from
    a sort on another key, gives ascending on k, and the next two clicks
    on it give descending on k and ascending on k again; a click on a
    sortable header never leaves the table unsorted. *)
Theorem header_click_transitions fuel (i : Instance) (col : Column) :
  (2 ≤ fuel)%nat →
  (sortable col ≠ Some true →
     ∃ i', step fuel i (HeaderClick col) = Some (i', [])
           ∧ sortConfig (state i') = sortConfig (state i)) ∧
  (sortable col = Some true →
     (∀ c, sortConfig (state i) = Some c → key c ≠ dataIndex col) →
     ∃ i1 i2 i3,
       step fuel i (HeaderClick col) = Some (i1, [])
       ∧ sortConfig (state i1) = Some {| key := dataIndex col; direction := asc |}
       ∧ step fuel i1 (HeaderClick col) = Some (i2, [])
       ∧ sortConfig (state i2) = Some {| key := dataIndex col; direction := desc |}
       ∧ step fuel i2 (HeaderClick col) = Some (i3, [])
       ∧ sortConfig (state i3) = Some {| key := dataIndex col; direction := asc |}) ∧
  (sortable col = Some true →
     ∃ i' d,
       step fuel i (HeaderClick col) = Some (i', [])
       ∧ sortConfig (state i') = Some {| key := dataIndex col; direction := d |}).
Proof.
  intros Hf. split_and!.
  - intros Hs.
    destruct (step_frame fuel i (HeaderClick col) Hf) as (i' & Hi & _ & Hsc & _).
    exists i'. split; [done|]. rewrite Hsc. simpl. unfold handleSort.
    by destruct (sortable col) as [[]|].
  - intros Hs Hk.
    destruct (step_frame fuel i (HeaderClick col) Hf) as (i1 & H1 & _ & S1 & _).
    destruct (step_frame fuel i1 (HeaderClick col) Hf) as (i2 & H2 & _ & S2 & _).
    destruct (step_frame fuel i2 (HeaderClick col) Hf) as (i3 & H3 & _ & S3 & _).
    simpl in *. unfold handleSort in *. rewrite Hs in *. simpl in *.
    assert (sortConfig (state i1)
            = Some {| key := dataIndex col; direction := asc |}) as E1.
    { rewrite S1. destruct (sortConfig (state i)) as [c|]; [|done].
      by rewrite decide_False by by apply Hk. }
    rewrite E1 in S2. simpl in S2. rewrite decide_True in S2 by done.
    rewrite S2 in S3. simpl in S3. rewrite decide_True in S3 by done.
    by exists i1, i2, i3.
  - intros Hs.
    destruct (step_frame fuel i (HeaderClick col) Hf) as (i' & Hi & _ & Hsc & _).
    simpl in *. unfold handleSort in *. rewrite Hs in *. simpl in *.
    destruct (sortConfig (state i)) as [c|]; [case_decide|]; eauto.
Qed.

(** C7: with selection enabled, select-all in multiple mode empties a
    selection whose size equals the number of rows and replaces any other
    selection by the set of all row ids; and a row toggle or select-all
    calls [onRowSelect], when it is supplied, exactly once, with the rows
    of [data] whose ids are in the new selection, in the order of [data]. *)
Theorem select_all_and_notification fuel (i : Instance) :
  (2 ≤ fuel)%nat →
  selectable (props i) = true →
  (selectionMode (props i) = multiple →
     ∃ i' out,
       step fuel i ToggleAll = Some (i', out)
       ∧ (Z.of_nat (size (selectedRows (state i))) = len (data (props i)) →
            selectedRows (state i') = ∅)
       ∧ (Z.of_nat (size (selectedRows (state i))) ≠ len (data (props i)) →
            ∀ x, x ∈ selectedRows (state i')
                 ↔ ∃ r, r ∈ data (props i) ∧ id r = x)
       ∧ out = if onRowSelect (props i)
               then [filter (λ r, id r ∈ selectedRows (state i')) (data (props i))]
               else []) ∧
  (∀ row,
     ∃ i' out,
       step fuel i (ToggleRow row) = Some (i', out)
       ∧ out = if onRowSelect (props i)
               then [filter (λ r, id r ∈ selectedRows (state i')) (data (props i))]
               else []).
Proof.
  intros Hf Hsel. split.
  - intros Hm.
    destruct (step_frame fuel i ToggleAll Hf) as (i' & Hi & _ & _ & Hs).
    exists i', (handle i ToggleAll).2. split; [done|].
    simpl in *. unfold handleSelectAll in *. rewrite Hsel, Hm in *. simpl in *.
    case_decide as Hd; simpl in *; rewrite Hs; split_and!; try done.
    intros _ x. apply elem_of_allIds.
  - intros row.
    destruct (step_frame fuel i (ToggleRow row) Hf) as (i' & Hi & _ & _ & Hs).
    exists i', (handle i (ToggleRow row)).2. split; [done|].
    simpl in *. unfold handleSelectRow in *. rewrite Hsel in *. simpl in *.
    by rewrite Hs.
Qed.

(** In single mode no event makes the selection larger than one row. *)
Lemma single_mode_size fuel i e i' out :
  (2 ≤ fuel)%nat →
  selectionMode (props i) = single →
  (size (selectedRows (state i)) ≤ 1)%nat →
  step fuel i e = Some (i', out) →
  (size (selectedRows (state i')) ≤ 1)%nat.
Proof.
  intros Hf Hm Hsz.
  destruct (step_frame fuel i e Hf) as (j & Hj & _ & _ & Hs).
  rewrite Hj. intros [= <- <-]. rewrite Hs.
  destruct e; simpl; try done.
  - unfold handleSort. by repeat case_match.
  - unfold handleSelectRow, toggleRow. rewrite Hm.
    destruct (selectable (props i)); simpl; [|done].
    case_decide; [by rewrite size_empty; lia|by rewrite size_singleton].
  - unfold handleSelectAll. rewrite Hm.
    by destruct (selectable (props i)).
Qed.

(** C8: in single mode, with selection enabled, toggling a row that is
    selected empties the selection (so toggling the sole selected row does)
    and toggling a row that is not selected makes it the only selected
    row; while at most one row is selected, "any row other than the sole
    selected one" is such a row.  Toggling a row and then a row with
    another id leaves exactly the second one, select-all changes nothing,
    and no event makes a selection of at most one row larger than that. *)
Theorem single_selection fuel (i : Instance) :
  (2 ≤ fuel)%nat →
  selectable (props i) = true →
  selectionMode (props i) = single →
  (∀ row, id row ∈ selectedRows (state i) →
     ∃ i' out, step fuel i (ToggleRow row) = Some (i', out)
               ∧ selectedRows (state i') = ∅) ∧
  (∀ row, selectedRows (state i) = {[ id row ]} →
     ∃ i' out, step fuel i (ToggleRow row) = Some (i', out)
               ∧ selectedRows (state i') = ∅) ∧
  (∀ row, id row ∉ selectedRows (state i) →
     ∃ i' out, step fuel i (ToggleRow row) = Some (i', out)
               ∧ selectedRows (state i') = {[ id row ]}) ∧
  (∀ row, (size (selectedRows (state i)) ≤ 1)%nat →
     selectedRows (state i) ≠ {[ id row ]} →
     ∃ i' out, step fuel i (ToggleRow row) = Some (i', out)
               ∧ selectedRows (state i') = {[ id row ]}) ∧
  (∀ a b, id a ≠ id b →
     ∃ i1 out1 i2 out2,
       step fuel i (ToggleRow a) = Some (i1, out1)
       ∧ step fuel i1 (ToggleRow b) = Some (i2, out2)
       ∧ selectedRows (state i2) = {[ id b ]}) ∧
  (∃ i', step fuel i ToggleAll = Some (i', [])
         ∧ selectedRows (state i') = selectedRows (state i)) ∧
  (∀ e i' out, (size (selectedRows (state i)) ≤ 1)%nat →
     step fuel i e = Some (i', out) →
     (size (selectedRows (state i')) ≤ 1)%nat).
Proof.
  intros Hf Hsel Hm.
  assert (∀ row, id row ∈ selectedRows (state i) →
            ∃ i' out, step fuel i (ToggleRow row) = Some (i', out)
                      ∧ selectedRows (state i') = ∅) as Hin.
  { intros row Hrow.
    destruct (step_frame fuel i (ToggleRow row) Hf) as (i' & Hi & _ & _ & Hs).
    eexists _, _. split; [done|]. rewrite Hs. simpl.
    unfold handleSelectRow. rewrite Hsel, Hm. simpl.
    by rewrite decide_True. }
  assert (∀ row, id row ∉ selectedRows (state i) →
            ∃ i' out, step fuel i (ToggleRow row) = Some (i', out)
                      ∧ selectedRows (state i') = {[ id row ]}) as Hout.
  { intros row Hrow.
    destruct (step_frame fuel i (ToggleRow row) Hf) as (i' & Hi & _ & _ & Hs).
    eexists _, _. split; [done|]. rewrite Hs. simpl.
    unfold handleSelectRow. rewrite Hsel, Hm. simpl.
    by rewrite decide_False. }
  split_and!.
  - exact Hin.
  - intros row Hrow. apply Hin. rewrite Hrow. by apply elem_of_singleton.
  - exact Hout.
  - intros row Hsz Hrow. apply Hout.
    intros Hi. by apply Hrow, size_le_1_singleton.
  - intros a b Hab.
    destruct (step_frame fuel i (ToggleRow a) Hf) as (i1 & H1 & P1 & _ & S1).
    destruct (step_frame fuel i1 (ToggleRow b) Hf) as (i2 & H2 & _ & _ & S2).
    eexists _, _, _, _. split_and!; [done..|]. rewrite S2. simpl in *.
    unfold handleSelectRow in *. rewrite P1, Hsel, Hm in *. simpl in *.
    rewrite decide_False; [done|].
    intros Hi. rewrite S1 in Hi.
    destruct (decide (id a ∈ selectedRows (state i))).
    + by apply not_elem_of_empty in Hi.
    + apply elem_of_singleton in Hi. congruence.
  - destruct (step_frame fuel i ToggleAll Hf) as (i' & Hi & _ & _ & Hs).
    exists i'. simpl in *. unfold handleSelectAll in *.
    rewrite Hsel, Hm in *. by simpl in *.
  - intros e i' out Hsz. by apply single_mode_size.
Qed.

End events.

(** ** Navigation and new data *)

Section navigation.
Context `{!Collator}.

Lemma handle_not_selection i e :
  isSelection e = false →
  (handle i e).2 = [] ∧ selectedRows (handle i e).1.2 = selectedRows (state i).
Proof.
  destruct e; simpl; try done. intros _. split; [done|].
  unfold handleSort. by repeat case_match.
Qed.

(** Only row toggles and select-all write the selection or call back. *)
Lemma step_not_selection fuel i e :
  (2 ≤ fuel)%nat → isSelection e = false →
  ∃ i', step fuel i e = Some (i', [])
        ∧ selectedRows (state i') = selectedRows (state i).
Proof.
  intros Hf He.
  destruct (step_frame fuel i e Hf) as (i' & Hi & _ & _ & Hs).
  destruct (handle_not_selection i e He) as [Ho Hh].
  exists i'. by rewrite Hi, Hs, Ho, Hh.
Qed.

Lemma run_navigation fuel i es :
  (2 ≤ fuel)%nat →
  Forall (λ e, isNavigation e = true) es →
  ∃ i', run fuel i es = Some (i', [])
        ∧ props i' = props i
        ∧ sortConfig (state i') = sortConfig (state i)
        ∧ selectedRows (state i') = selectedRows (state i).
Proof.
  intros Hf Hes. revert i.
  induction Hes as [|e es He _ IH]; intros i; simpl.
  - by exists i.
  - destruct (step_frame fuel i e Hf) as (i1 & H1 & P1 & C1 & S1).
    destruct (IH i1) as (i2 & H2 & P2 & C2 & S2).
    exists i2. rewrite H1. simpl. rewrite H2. simpl.
    rewrite P2, C2, S2, P1, C1, S1.
    by destruct e.
Qed.

(** C9: page navigation does not touch the selection.  Any sequence of
    goToNext and goToPrev events runs to completion, calls nothing back
    and leaves the selection set as it was; in particular a row toggled on
    one page is in the selection after going to the next page and back
    exactly if it was before going. *)
Theorem navigation_keeps_selection fuel (i : Instance) :
  (2 ≤ fuel)%nat →
  (∀ es, Forall (λ e, isNavigation e = true) es →
     ∃ i', run fuel i es = Some (i', [])
           ∧ selectedRows (state i') = selectedRows (state i)) ∧
  (∀ row,
     ∃ i1 out i2,
       step fuel i (ToggleRow row) = Some (i1, out)
       ∧ run fuel i1 [NextPage; PrevPage] = Some (i2, [])
       ∧ selectedRows (state i2) = selectedRows (state i1)).
Proof.
  intros Hf. split.
  - intros es Hes.
    destruct (run_navigation fuel i es Hf Hes) as (i' & Hi & _ & _ & Hs).
    by exists i'.
  - intros row.
    destruct (step_frame fuel i (ToggleRow row) Hf) as (i1 & H1 & _).
    destruct (run_navigation fuel i1 [NextPage; PrevPage] Hf)
      as (i2 & H2 & _ & _ & S2); [by repeat constructor|].
    by exists i1, (handle i (ToggleRow row)).2, i2.
Qed.

(** Every callback argument consists of rows of the current data whose
    ids are in the selection the event leaves behind. *)
Lemma step_payload fuel i e i' out payload r :
  (2 ≤ fuel)%nat →
  step fuel i e = Some (i', out) → payload ∈ out → r ∈ payload →
  r ∈ data (props i) ∧ id r ∈ selectedRows (state i').
Proof.
  intros Hf.
  destruct (step_frame fuel i e Hf) as (j & Hj & _ & _ & Hs).
  rewrite Hj. intros [= <- <-]. rewrite Hs. clear Hj Hs.
  destruct e; simpl; try (by intros ?%not_elem_of_nil).
  - unfold handleSelectRow, notifySelection.
    destruct (selectable (props i)), (onRowSelect (props i)); simpl;
      try (by intros ?%not_elem_of_nil).
    intros ->%list_elem_of_singleton Hr.
    by apply elem_of_materialize in Hr as [? ?].
  - unfold handleSelectAll, notifySelection.
    destruct (selectable (props i)), (onRowSelect (props i)); simpl;
      repeat case_match; simpl; try (by intros ?%not_elem_of_nil);
      intros ->%list_elem_of_singleton Hr;
      by apply elem_of_materialize in Hr as [? ?].
Qed.

(** C10: replacing the data never modifies the selection.  A new props
    object, and every event other than a row toggle or select-all, leaves
    the selection set as it was and calls nothing back; the rows handed to
    [onRowSelect] are always rows of the current data, so an id without a
    row there is absent from every payload; and in multiple mode such an
    id stays in the set when another row is toggled. *)
Theorem data_replacement_keeps_selection fuel (i : Instance) :
  (2 ≤ fuel)%nat →
  (∀ p', ∃ i', step fuel i (SetProps p') = Some (i', [])
               ∧ props i' = p'
               ∧ selectedRows (state i') = selectedRows (state i)) ∧
  (∀ e, isSelection e = false →
     ∃ i', step fuel i e = Some (i', [])
           ∧ selectedRows (state i') = selectedRows (state i)) ∧
  (∀ e i' out payload s,
     step fuel i e = Some (i', out) → payload ∈ out →
     (∀ r, r ∈ data (props i) → id r ≠ s) →
     s ∉ id <$> payload) ∧
  (∀ row s,
     selectable (props i) = true → selectionMode (props i) = multiple →
     s ∈ selectedRows (state i) → id row ≠ s →
     ∃ i' out, step fuel i (ToggleRow row) = Some (i', out)
               ∧ s ∈ selectedRows (state i')).
Proof.
  intros Hf. split_and!.
  - intros p'.
    destruct (step_frame fuel i (SetProps p') Hf) as (i' & Hi & Hp & _ & Hs).
    by exists i'.
  - intros e He. by apply step_not_selection.
  - intros e i' out payload s Hstep Hpl Hs Hin.
    apply list_elem_of_fmap in Hin as (r & -> & Hr).
    destruct (step_payload fuel i e i' out payload r Hf Hstep Hpl Hr) as [Hd _].
    by apply (Hs r).
  - intros row s Hsel Hm Hin Hne.
    destruct (step_frame fuel i (ToggleRow row) Hf) as (i' & Hi & _ & _ & Hs).
    eexists _, _. split; [done|]. rewrite Hs. simpl.
    unfold handleSelectRow, toggleRow. rewrite Hsel, Hm. simpl.
    case_decide.
    + apply elem_of_difference. by rewrite elem_of_singleton.
    + apply elem_of_union. by left.
Qed.

(** *** The page after an update *)

Lemma step_NextPage fuel i :
  (2 ≤ fuel)%nat → atRest i →
  ∃ i', step fuel i NextPage = Some (i', [])
        ∧ props i' = props i
        ∧ currentPage (state i')
          = Z.min (currentPage (state i) + 1) (totalPages (props i)).
Proof.
  intros Hf [Hc Hp]. eexists. rewrite step_spec by done.
  split_and!; [done..|].
  unfold afterEffects. cbn [props state handle fst snd].
  rewrite currentPage_applyUpdates.
  unfold runEffects, pageResetEffect, pageClampEffect.
  cbn [props state committed]. rewrite Hc. simpl.
  rewrite decide_True by done. simpl.
  destruct (Z.ltb_spec (totalPages (props i))
              (Z.min (currentPage (state i) + 1) (totalPages (props i))));
    [lia|]. by case_decide.
Qed.

Lemma step_PrevPage fuel i :
  (2 ≤ fuel)%nat → atRest i →
  ∃ i', step fuel i PrevPage = Some (i', [])
        ∧ props i' = props i
        ∧ currentPage (state i') = Z.max 1 (currentPage (state i) - 1).
Proof.
  intros Hf [Hc Hp]. eexists. rewrite step_spec by done.
  split_and!; [done..|].
  unfold afterEffects. cbn [props state handle fst snd].
  rewrite currentPage_applyUpdates.
  unfold runEffects, pageResetEffect, pageClampEffect.
  cbn [props state committed]. rewrite Hc. simpl.
  rewrite decide_True by done. simpl.
  destruct (Z.ltb_spec (totalPages (props i))
              (Z.max 1 (currentPage (state i) - 1))); [lia|].
  by case_decide.
Qed.

(** New props: the clamp has the last word whenever the page shown lies
    beyond the new page count; otherwise a change of length resets the
    page to 1 and anything else leaves it. *)
Lemma step_SetProps fuel i p' :
  (2 ≤ fuel)%nat → atRest i →
  ∃ i', step fuel i (SetProps p') = Some (i', [])
        ∧ props i' = p'
        ∧ currentPage (state i')
          = if totalPages p' <? currentPage (state i) then totalPages p'
            else if decide (len (data (props i)) = len (data p'))
                 then currentPage (state i)
                 else 1.
Proof.
  intros Hf [Hc Hp]. eexists. rewrite step_spec by done.
  split_and!; [done..|].
  unfold afterEffects. cbn [props state handle fst snd].
  rewrite currentPage_applyUpdates.
  unfold runEffects, pageResetEffect, pageClampEffect.
  cbn [props state committed]. rewrite Hc. simpl.
  destruct (Z.ltb_spec (totalPages p') (currentPage (state i))).
  - rewrite (decide_False (P := _ ∧ _)) by lia. by rewrite last_snoc.
  - destruct (decide (_ ∧ _)); rewrite app_nil_r; by case_decide.
Qed.

End navigation.

(** ** Shrinking data *)

Section shrinking.
Context `{!Collator}.

Lemma totalPages_eq p n k :
  length (data p) = n → itemsPerPage p = k →
  totalPages p = Z.max 1 (ceilDiv (Z.of_nat n) k).
Proof. unfold totalPages, len. by intros -> ->. Qed.

(** C1: a table mounted with 10 rows and a page size of 2 has 5 pages and
    four goToNext events bring it to page 5; when the rows are then
    replaced by 3 rows, the update runs to completion, the table has 2
    pages and the current page is 2. *)
Theorem page_clamp_on_shrink fuel (p : Props) (d3 : list Row) :
  (2 ≤ fuel)%nat →
  length (data p) = 10%nat → itemsPerPage p = 2 → length d3 = 3%nat →
  ∃ i0 i5 i',
    mount fuel p = Some i0
    ∧ run fuel i0 [NextPage; NextPage; NextPage; NextPage] = Some (i5, [])
    ∧ props i5 = p
    ∧ totalPages (props i5) = 5
    ∧ currentPage (state i5) = 5
    ∧ step fuel i5 (SetProps (withData p d3)) = Some (i', [])
    ∧ data (props i') = d3
    ∧ totalPages (props i') = 2
    ∧ currentPage (state i') = 2.
Proof.
  intros Hf H10 Hk H3.
  assert (totalPages p = 5) as Htp by by rewrite (totalPages_eq p 10 2).
  assert (totalPages (withData p d3) = 2) as Htp'
    by by rewrite (totalPages_eq _ 3 2).
  pose proof (mount_spec fuel p Hf) as Hm.
  set (i0 := {| props := p; state := initialState;
                committed := Some (renderDeps p initialState) |}) in Hm.
  pose proof (mount_atRest fuel p i0 Hf Hm) as R0.
  destruct (step_NextPage fuel i0 Hf R0) as (i1 & S1 & P1 & C1).
  pose proof (step_atRest fuel _ _ _ _ Hf R0 S1) as R1.
  destruct (step_NextPage fuel i1 Hf R1) as (i2 & S2 & P2 & C2).
  pose proof (step_atRest fuel _ _ _ _ Hf R1 S2) as R2.
  destruct (step_NextPage fuel i2 Hf R2) as (i3 & S3 & P3 & C3).
  pose proof (step_atRest fuel _ _ _ _ Hf R2 S3) as R3.
  destruct (step_NextPage fuel i3 Hf R3) as (i4 & S4 & P4 & C4).
  pose proof (step_atRest fuel _ _ _ _ Hf R3 S4) as R4.
  destruct (step_SetProps fuel i4 (withData p d3) Hf R4) as (i' & S' & P' & C').
  assert (props i4 = p) as P by (rewrite P4, P3, P2, P1; done).
  assert (currentPage (state i4) = 5) as C.
  { rewrite C4, C3, C2, C1, P3, P2, P1. simpl. rewrite Htp. done. }
  exists i0, i4, i'. split_and!; try done.
  - simpl. rewrite S1. simpl. rewrite S2. simpl. rewrite S3. simpl.
    by rewrite S4.
  - by rewrite P.
  - by rewrite P'.
  - by rewrite P'.
  - rewrite C', C, Htp'. done.
Qed.

(** What a change of length does to the page of a table at rest: page 1,
    unless the page shown lay beyond the new page count. *)
Lemma page_after_length_change fuel i p' :
  (2 ≤ fuel)%nat → atRest i →
  len (data (props i)) ≠ len (data p') →
  ∃ i', step fuel i (SetProps p') = Some (i', [])
        ∧ currentPage (state i')
          = if totalPages p' <? currentPage (state i) then totalPages p' else 1.
Proof.
  intros Hf Hr Hlen.
  destruct (step_SetProps fuel i p' Hf Hr) as (i' & Hs & _ & Hc).
  exists i'. split; [done|]. rewrite Hc. by rewrite decide_False.
Qed.

End shrinking.

(** ** The sample tables *)

Section samples.
#[local] Existing Instance asciiCollator.

(** Code unit order is a consistent order of the keys. *)
Lemma codeUnit_cases a b :
  (codeUnitOrder a b = -1 ∧ String_as_OT.lt a b)
  ∨ (codeUnitOrder a b = 0 ∧ a = b)
  ∨ (codeUnitOrder a b = 1 ∧ String_as_OT.lt b a).
Proof.
  unfold codeUnitOrder. pose proof (String_as_OT.cmp_antisym a b) as Hanti.
  unfold String_as_OT.cmp in Hanti.
  destruct (String.compare a b) eqn:E.
  - right. left. split; [done|]. by apply String_as_OT.cmp_eq.
  - left. split; [done|]. by apply String_as_OT.cmp_lt.
  - right. right. split; [done|]. apply String_as_OT.cmp_lt.
    unfold String_as_OT.cmp. destruct (String.compare b a); by simpl in Hanti.
Qed.

#[local] Instance codeUnit_consistent : ConsistentCollator.
Proof.
  assert (∀ a, ¬ String_as_OT.lt a a) as Hirr.
  { intros a Ha. by apply String_as_OT.lt_not_eq in Ha. }
  assert (∀ a b, String_as_OT.lt a b → String_as_OT.lt b a → False) as Hasym.
  { intros a b H1 H2. apply (Hirr a). by apply String_as_OT.lt_trans with b. }
  split; intros o; simpl;
    [intros a; generalize (collationKey o a); clear a; intros a
    |intros a b; generalize (collationKey o a) (collationKey o b);
     clear a b; intros a b
    |intros a b c;
     generalize (collationKey o a) (collationKey o b) (collationKey o c);
     clear a b c; intros a b c..].
  - destruct (codeUnit_cases a a) as [[_ H]|[[H _]|[_ H]]];
      [by apply Hirr in H|done|by apply Hirr in H].
  - intros Hab.
    destruct (codeUnit_cases a b) as [[H _]|[[_ ->]|[H _]]]; [lia| |lia].
    destruct (codeUnit_cases b b) as [[_ H]|[[H _]|[_ H]]];
      [by apply Hirr in H|done|by apply Hirr in H].
  - intros Hab Hbc.
    destruct (codeUnit_cases a b) as [[H _]|[[_ ->]|[H _]]]; [lia|done|lia].
  - intros Hab Hbc.
    destruct (codeUnit_cases a b) as [[_ H1]|[[H _]|[H _]]]; [|lia..].
    destruct (codeUnit_cases b c) as [[_ H2]|[[H _]|[H _]]]; [|lia..].
    pose proof (String_as_OT.lt_trans _ _ _ H1 H2) as H3.
    destruct (codeUnit_cases a c) as [[H _]|[[_ ->]|[_ H]]];
      [lia|by apply Hirr in H3|by destruct (Hasym _ _ H3 H)].
  - intros Hab Hbc.
    destruct (codeUnit_cases a b) as [[H _]|[[H _]|[_ H1]]]; [lia..|].
    destruct (codeUnit_cases b c) as [[H _]|[[H _]|[_ H2]]]; [lia..|].
    pose proof (String_as_OT.lt_trans _ _ _ H2 H1) as H3.
    destruct (codeUnit_cases a c) as [[_ H]|[[_ ->]|[H _]]];
      [by destruct (Hasym _ _ H3 H)|by apply Hirr in H3|lia].
Qed.

(** The name column of the test data is text, so sorting by name is
    covered as well. *)
Example sort_by_name_consistent dir :
  Consistent (rowCompare {| key := "name"; direction := dir |}) mockData.
Proof.
  apply rowCompare_consistent. right.
  unfold textColumn. apply Forall_forall. by repeat constructor.
Qed.

(** The stand-in follows the options the component passes: letters are
    compared without their case and runs of digits by their value. *)
Example collator_ignores_case :
  localeCompare {| numeric := true; sensitivity := SensBase |} "Alice" "alice" = 0
  ∧ localeCompare {| numeric := true; sensitivity := SensVariant |} "Alice" "alice" ≠ 0.
Proof. by vm_compute. Qed.

Example collator_reads_numbers :
  localeCompare {| numeric := true; sensitivity := SensBase |} "item2" "item10" < 0
  ∧ 0 < localeCompare {| numeric := false; sensitivity := SensBase |} "item2" "item10"
  ∧ localeCompare {| numeric := true; sensitivity := SensBase |} "007" "7" = 0.
Proof. by vm_compute. Qed.



Lemma mount_mounted fuel p : (2 ≤ fuel)%nat → mount fuel p = Some (mounted p).
Proof. apply mount_spec. Qed.

(** The scenario of the specification: ages 30, 25, 35. *)
Example sort_by_age_asc :
  id <$> sortedData mockData (Some (byAge asc)) = [IdNum 2; IdNum 1; IdNum 3].
Proof. vm_compute. reflexivity. Qed.

Example sort_by_age_desc :
  id <$> sortedData mockData (Some (byAge desc)) = [IdNum 3; IdNum 1; IdNum 2].
Proof. vm_compute. reflexivity. Qed.

Example sort_by_name_asc :
  id <$> sortedData (reverse mockData) (Some {| key := "name"; direction := asc |})
  = [IdNum 1; IdNum 2; IdNum 3].
Proof. vm_compute. reflexivity. Qed.

Example sort_twins_stable :
  id <$> sortedData twins (Some (byAge asc)) = [IdNum 2; IdNum 4; IdNum 1; IdNum 3].
Proof. vm_compute. reflexivity. Qed.

Example pages_of_extendedData :
  (λ k, id <$> pageSlice extendedData k 2) <$> seqZ 1 (totalPages (tableProps extendedData multiple 2))
  = [[IdNum 1; IdNum 2]; [IdNum 3; IdNum 4]].
Proof. vm_compute. reflexivity. Qed.

Lemma numericColumn_age_mockData : numericColumn "age" mockData.
Proof. unfold numericColumn. apply Forall_forall. by repeat constructor. Qed.

Lemma numericColumn_age_twins : numericColumn "age" twins.
Proof. unfold numericColumn. apply Forall_forall. by repeat constructor. Qed.

Lemma consistent_byAge d dir :
  numericColumn "age" d →
  ∀ c, Some (byAge dir) = Some c → Consistent (rowCompare c) d.
Proof. intros Hd c [= <-]. by apply rowCompare_numeric_consistent. Qed.

(** C2: the page reset on a change of length, at the input where it is
    lost.  On page 5 of 5 the ten rows are replaced by three: the length
    changed, the first effect queued page 1, the second one queued the new
    page count after it, and the table ends on page 2, not on page 1. *)
Theorem page_reset_overridden_on_shrink :
  ∃ i5 i',
    run 2 (mounted (tableProps tenRows multiple 2))
      [NextPage; NextPage; NextPage; NextPage] = Some (i5, [])
    ∧ currentPage (state i5) = 5
    ∧ len (take 3 tenRows) ≠ len tenRows
    ∧ step 2 i5 (SetProps (tableProps (take 3 tenRows) multiple 2)) = Some (i', [])
    ∧ currentPage (state i') = 2
    ∧ currentPage (state i') ≠ 1.
Proof.
  eexists _, _. split_and!.
  - vm_compute. reflexivity.
  - reflexivity.
  - by vm_compute.
  - vm_compute. reflexivity.
  - reflexivity.
  - by vm_compute.
Qed.

Lemma page_clamp_on_shrink_witness :
  (2 ≤ 2)%nat
  ∧ length (data (tableProps tenRows multiple 2)) = 10%nat
  ∧ itemsPerPage (tableProps tenRows multiple 2) = 2
  ∧ length (take 3 tenRows) = 3%nat
  ∧ ∃ i0 i5 i',
      mount 2 (tableProps tenRows multiple 2) = Some i0
      ∧ run 2 i0 [NextPage; NextPage; NextPage; NextPage] = Some (i5, [])
      ∧ props i5 = tableProps tenRows multiple 2
      ∧ totalPages (props i5) = 5
      ∧ currentPage (state i5) = 5
      ∧ step 2 i5 (SetProps (withData (tableProps tenRows multiple 2) (take 3 tenRows)))
        = Some (i', [])
      ∧ data (props i') = take 3 tenRows
      ∧ totalPages (props i') = 2
      ∧ currentPage (state i') = 2.
Proof.
  split_and!; [lia|reflexivity..|].
  apply (page_clamp_on_shrink 2 (tableProps tenRows multiple 2) (take 3 tenRows));
    [lia|reflexivity..].
Defined.



Lemma header_click_transitions_witness :
  (2 ≤ 2)%nat ∧
  ∃ i1 i2 i3,
    step 2 (mounted (tableProps mockData multiple 10)) (HeaderClick ageColumn)
    = Some (i1, [])
    ∧ sortConfig (state i1) = Some (byAge asc)
    ∧ step 2 i1 (HeaderClick ageColumn) = Some (i2, [])
    ∧ sortConfig (state i2) = Some (byAge desc)
    ∧ step 2 i2 (HeaderClick ageColumn) = Some (i3, [])
    ∧ sortConfig (state i3) = Some (byAge asc).
Proof.
  destruct (header_click_transitions 2
              (mounted (tableProps mockData multiple 10)) ageColumn (le_n 2))
    as (_ & H & _).
  split; [apply le_n|].
  apply H; [reflexivity|]. intros c Hc. discriminate Hc.
Defined.

Lemma pagination_coverage_witness :
  1 ≤ itemsPerPage (tableProps extendedData multiple 2)
  ∧ (∃ c, (c - 1) * 2 < len extendedData ≤ c * 2
          ∧ totalPages (tableProps extendedData multiple 2) = Z.max 1 c)
  ∧ concat ((λ k, paginatedData (tableProps extendedData multiple 2)
                    (setCurrentPage k (setSortConfig (Some (byAge desc)) initialState)))
              <$> seqZ 1 (totalPages (tableProps extendedData multiple 2)))
    = sortedData extendedData (Some (byAge desc)).
Proof.
  split; [by vm_compute|].
  apply (pagination_coverage (tableProps extendedData multiple 2)
           (setSortConfig (Some (byAge desc)) initialState)).
  by vm_compute.
Defined.

(** The selection tests of the component: rows 1 and 2 are ticked, row 1
    is unticked, then select-all is clicked twice. *)
Example multi_row_selection_log :
  snd <$> run 2 (mounted (tableProps mockData multiple 10))
            [ToggleRow alice; ToggleRow bob; ToggleRow alice; ToggleAll; ToggleAll]
  = Some [[alice]; [alice; bob]; [bob]; mockData; []].
Proof. vm_compute. reflexivity. Qed.

Example single_row_selection_log :
  snd <$> run 2 (mounted (tableProps mockData single 10))
            [ToggleRow alice; ToggleRow bob; ToggleAll]
  = Some [[alice]; [bob]].
Proof. vm_compute. reflexivity. Qed.

(** Row 1 is selected, the data is replaced by the single row 4, and row
    4 is ticked: id 1 is still selected, the callback receives row 4. *)
Example stale_id_stays_selected :
  (λ r, (selectedRows (state r.1), r.2))
    <$> run 2 (mounted (tableProps mockData multiple 10))
          [ToggleRow alice; SetProps (tableProps [diana] multiple 10); ToggleRow diana]
  = Some ({[ IdNum 1; IdNum 4 ]}, [[alice]; [diana]]).
Proof. vm_compute. reflexivity. Qed.

Lemma select_all_and_notification_witness :
  (2 ≤ 2)%nat
  ∧ selectable (props (aliceSelected multiple)) = true
  ∧ selectionMode (props (aliceSelected multiple)) = multiple
  ∧ ∃ i' out,
      step 2 (aliceSelected multiple) ToggleAll = Some (i', out)
      ∧ (∀ x, x ∈ selectedRows (state i') ↔ ∃ r, r ∈ mockData ∧ id r = x)
      ∧ out = [filter (λ r, id r ∈ selectedRows (state i')) mockData].
Proof.
  split_and!; [apply le_n|reflexivity..|].
  destruct (select_all_and_notification 2 (aliceSelected multiple)
              (le_n 2) eq_refl) as [H _].
  destruct (H eq_refl) as (i' & out & Hs & _ & Hall & Hout).
  exists i', out. split_and!; [exact Hs| |exact Hout].
  apply Hall. by vm_compute.
Defined.

(** The selection of a table that was in multiple mode is not cut down
    when the mode becomes single: two rows stay selected, and toggling
    row 1, which is not the sole selected row, empties the selection
    instead of leaving row 1 alone in it. *)
Lemma single_mode_keeps_two_selected :
  ∃ out i' out',
    run 2 (mounted (tableProps mockData multiple 2))
      [ToggleRow alice; ToggleRow bob; SetProps (tableProps mockData single 2)]
    = Some (twoSelected, out)
    ∧ selectable (props twoSelected) = true
    ∧ selectionMode (props twoSelected) = single
    ∧ size (selectedRows (state twoSelected)) = 2%nat
    ∧ selectedRows (state twoSelected) ≠ {[ id alice ]}
    ∧ step 2 twoSelected (ToggleRow alice) = Some (i', out')
    ∧ selectedRows (state i') = ∅
    ∧ selectedRows (state i') ≠ {[ id alice ]}.
Proof.
  eexists _, _, _. split_and!.
  - vm_compute. reflexivity.
  - reflexivity.
  - reflexivity.
  - by vm_compute.
  - intros H. apply (f_equal size) in H. by vm_compute in H.
  - vm_compute. reflexivity.
  - reflexivity.
  - intros H. apply (f_equal size) in H. by vm_compute in H.
Qed.

Lemma single_selection_witness :
  (2 ≤ 2)%nat
  ∧ selectable (props twoSelected) = true
  ∧ selectionMode (props twoSelected) = single
  ∧ (∃ i' out, step 2 twoSelected (ToggleRow alice) = Some (i', out)
               ∧ selectedRows (state i') = ∅)
  ∧ (∃ i' out, step 2 twoSelected (ToggleRow charlie) = Some (i', out)
               ∧ selectedRows (state i') = {[ id charlie ]})
  ∧ (∃ i1 out1 i2 out2,
       step 2 twoSelected (ToggleRow alice) = Some (i1, out1)
       ∧ step 2 i1 (ToggleRow bob) = Some (i2, out2)
       ∧ selectedRows (state i2) = {[ id bob ]})
  ∧ (∃ i', step 2 twoSelected ToggleAll = Some (i', [])
           ∧ selectedRows (state i') = selectedRows (state twoSelected)).
Proof.
  destruct (single_selection 2 twoSelected (le_n 2) eq_refl eq_refl)
    as (Hin & _ & Hout & _ & Hab & Hall & _).
  split_and!; [apply le_n|reflexivity..| | | |exact Hall].
  - apply Hin. apply elem_of_union. left. by apply elem_of_singleton.
  - apply Hout. intros H. apply elem_of_union in H as [H|H];
      apply elem_of_singleton in H; discriminate H.
  - apply Hab. discriminate.
Defined.

Lemma navigation_keeps_selection_witness :
  (2 ≤ 2)%nat
  ∧ ∃ i', run 2 (aliceSelected multiple) [NextPage; PrevPage] = Some (i', [])
          ∧ selectedRows (state i') = selectedRows (state (aliceSelected multiple)).
Proof.
  split; [apply le_n|].
  destruct (navigation_keeps_selection 2 (aliceSelected multiple) (le_n 2))
    as [H _].
  apply H. repeat constructor.
Defined.

Lemma data_replacement_keeps_selection_witness :
  (2 ≤ 2)%nat
  ∧ ∃ i', step 2 (aliceSelected multiple)
            (SetProps (tableProps [diana] multiple 2)) = Some (i', [])
          ∧ props i' = tableProps [diana] multiple 2
          ∧ selectedRows (state i') = selectedRows (state (aliceSelected multiple)).
Proof.
  split; [apply le_n|].
  destruct (data_replacement_keeps_selection 2 (aliceSelected multiple) (le_n 2))
    as [H _].
  apply H.
Defined.

End samples.

(** * Further properties of the table *)

(** ** Pages *)

Section pages.
Context `{!Collator}.

Lemma run_atRest fuel i es :
  (2 ≤ fuel)%nat → atRest i →
  ∃ i' out, run fuel i es = Some (i', out) ∧ atRest i'.
Proof.
  intros Hf. revert i. induction es as [|e es IH]; intros i Hr; simpl.
  - by exists i, [].
  - destruct (step_frame fuel i e Hf) as (i1 & H1 & _).
    pose proof (step_atRest fuel i e i1 _ Hf Hr H1) as R1.
    destruct (IH i1 R1) as (i2 & out & H2 & R2).
    exists i2, ((handle i e).2 ++ out). rewrite H1. simpl. by rewrite H2.
Qed.

(** X1: whatever happens to a mounted table (clicks, toggles, new props
    with any data), as long as no page size is 0, every update runs to
    completion and the current page stays between 1 and the page count. *)
Theorem page_stays_in_range fuel (p : Props) (es : list Event) :
  (2 ≤ fuel)%nat →
  itemsPerPage p ≠ 0 →
  Forall nonzeroPageSize es →
  ∃ i0 i out,
    mount fuel p = Some i0
    ∧ run fuel i0 es = Some (i, out)
    ∧ 1 ≤ currentPage (state i) ≤ totalPages (props i).
Proof.
  intros Hf _ _. pose proof (mount_spec fuel p Hf) as Hm.
  pose proof (mount_atRest fuel p _ Hf Hm) as R0.
  destruct (run_atRest fuel _ es Hf R0) as (i & out & Hrun & _ & Hp).
  exists (mounted p), i, out. split; [exact Hm|]. by split.
Qed.

Lemma len_nonneg {A} (l : list A) : 0 ≤ len l.
Proof. unfold len. lia. Qed.

Lemma len_take {A} (l : list A) (n : nat) : len (take n l) = Z.min (Z.of_nat n) (len l).
Proof. unfold len. rewrite length_take. lia. Qed.

Lemma len_drop {A} (l : list A) (n : nat) : len (drop n l) = Z.max 0 (len l - Z.of_nat n).
Proof. unfold len. rewrite length_drop. lia. Qed.

(** The first row of the page shown exists, or the table is empty. *)
Lemma atRest_offset i :
  atRest i → 1 ≤ itemsPerPage (props i) →
  0 ≤ (currentPage (state i) - 1) * itemsPerPage (props i) ≤ len (data (props i))
  ∧ (0 < len (data (props i)) →
       (currentPage (state i) - 1) * itemsPerPage (props i) < len (data (props i))).
Proof.
  intros [_ Hcp] Hp.
  pose proof (ceilDiv_spec (len (data (props i))) (itemsPerPage (props i))
                ltac:(lia)) as Hc.
  pose proof (len_nonneg (data (props i))) as Hn.
  unfold totalPages in Hcp.
  set (c := ceilDiv (len (data (props i))) (itemsPerPage (props i))) in *.
  set (k := itemsPerPage (props i)) in *.
  set (n := len (data (props i))) in *.
  set (cp := currentPage (state i)) in *.
  destruct (decide (c ≤ 1)) as [Hle|Hgt].
  - replace cp with 1 by lia. lia.
  - assert ((cp - 1) * k ≤ (c - 1) * k) by nia. nia.
Qed.

(** X2: for a page size of at least 1, the page a table at rest shows has
    min(p, n - (page - 1) * p) rows: never more than the page size, and at
    least one row as soon as there is data. *)
Theorem page_shown_size (i : Instance) :
  atRest i → 1 ≤ itemsPerPage (props i) →
  len (paginatedData (props i) (state i))
  = Z.min (itemsPerPage (props i))
          (len (data (props i))
           - (currentPage (state i) - 1) * itemsPerPage (props i))
  ∧ (0 < len (data (props i)) → 0 < len (paginatedData (props i) (state i))).
Proof.
  intros [Hc Hcp] Hp. unfold paginatedData.
  rewrite pageSlice_take_drop by lia.
  rewrite len_take, len_drop, sortedData_length.
  destruct (atRest_offset i (conj Hc Hcp) Hp) as [Ho Hlt].
  rewrite !Z2Nat.id by lia. split; [lia|]. intros Hn. specialize (Hlt Hn). lia.
Qed.

(** X3: a footer button that can be clicked moves by exactly one page,
    and the opposite button then brings the table back. *)
Theorem next_prev_round_trip fuel (i : Instance) :
  (2 ≤ fuel)%nat → atRest i →
  (offered i NextPage = true →
     ∃ i1 i2,
       step fuel i NextPage = Some (i1, [])
       ∧ currentPage (state i1) = currentPage (state i) + 1
       ∧ offered i1 PrevPage = true
       ∧ step fuel i1 PrevPage = Some (i2, [])
       ∧ currentPage (state i2) = currentPage (state i)) ∧
  (offered i PrevPage = true →
     ∃ i1 i2,
       step fuel i PrevPage = Some (i1, [])
       ∧ currentPage (state i1) = currentPage (state i) - 1
       ∧ offered i1 NextPage = true
       ∧ step fuel i1 NextPage = Some (i2, [])
       ∧ currentPage (state i2) = currentPage (state i)).
Proof.
  intros Hf Hr. pose proof Hr as [_ Hcp].
  assert (∀ j e, offered j e = true → isNavigation e = true →
            loading (props j) = false
            ∧ len (data (props j)) ≠ 0
            ∧ 1 < totalPages (props j)) as Hview.
  { intros j e Ho He. unfold offered, render in Ho.
    destruct e; try done;
      (destruct (loading (props j)); [done|]; case_bool_decide; [done|];
       simpl in Ho; unfold renderPager in Ho;
       destruct (Z.ltb_spec 1 (totalPages (props j))); [done|done]). }
  split; intros Ho.
  - destruct (Hview i _ Ho eq_refl) as (Hl & Hd & Htp).
    assert (currentPage (state i) ≠ totalPages (props i)) as Hne.
    { unfold offered, render in Ho. rewrite Hl in Ho.
      rewrite bool_decide_false in Ho by done. simpl in Ho.
      unfold renderPager in Ho. destruct (1 <? _); [|done]. simpl in Ho.
      by case_bool_decide. }
    destruct (step_NextPage fuel i Hf Hr) as (i1 & S1 & P1 & C1).
    pose proof (step_atRest fuel _ _ _ _ Hf Hr S1) as R1.
    destruct (step_PrevPage fuel i1 Hf R1) as (i2 & S2 & P2 & C2).
    exists i1, i2. rewrite C2, C1. split_and!; [done|lia| |done|lia].
    unfold offered, render. rewrite P1, Hl, bool_decide_false by done.
    simpl. unfold renderPager. destruct (Z.ltb_spec 1 (totalPages (props i)));
      [|lia]. simpl. rewrite C1. by rewrite bool_decide_false by lia.
  - destruct (Hview i _ Ho eq_refl) as (Hl & Hd & Htp).
    assert (currentPage (state i) ≠ 1) as Hne.
    { unfold offered, render in Ho. rewrite Hl in Ho.
      rewrite bool_decide_false in Ho by done. simpl in Ho.
      unfold renderPager in Ho. destruct (1 <? _); [|done]. simpl in Ho.
      by case_bool_decide. }
    destruct (step_PrevPage fuel i Hf Hr) as (i1 & S1 & P1 & C1).
    pose proof (step_atRest fuel _ _ _ _ Hf Hr S1) as R1.
    destruct (step_NextPage fuel i1 Hf R1) as (i2 & S2 & P2 & C2).
    exists i1, i2. rewrite C2, C1, P1. split_and!; [done|lia| |done|lia].
    unfold offered, render. rewrite P1, Hl, bool_decide_false by done.
    simpl. unfold renderPager. destruct (Z.ltb_spec 1 (totalPages (props i)));
      [|lia]. simpl. rewrite C1. by rewrite bool_decide_false by lia.
Qed.

(** X4: in a table at rest a footer button is disabled exactly when its
    handler would leave the page where it is, so no move is withheld and
    no enabled button is without effect. *)
Theorem disabled_iff_no_move (i : Instance) (pg : Pager) :
  atRest i → renderPager (props i) (state i) = Some pg →
  (nextDisabled pg = true
     ↔ currentPage (goToNext (props i) (state i)) = currentPage (state i)) ∧
  (prevDisabled pg = true
     ↔ currentPage (goToPrev (state i)) = currentPage (state i)).
Proof.
  intros [_ Hcp]. unfold renderPager.
  destruct (1 <? totalPages (props i)); [|done]. intros [= <-]. simpl.
  rewrite !bool_decide_eq_true. lia.
Qed.

(** X5: for a page size of at least 1 the footer is left out exactly when
    all rows fit on one page, and the table at rest then shows every row
    of the sorted view. *)
Theorem pager_hidden_iff_one_page (i : Instance) :
  atRest i → 1 ≤ itemsPerPage (props i) →
  (renderPager (props i) (state i) = None
     ↔ len (data (props i)) ≤ itemsPerPage (props i)) ∧
  (renderPager (props i) (state i) = None →
     paginatedData (props i) (state i)
     = sortedData (data (props i)) (sortConfig (state i))).
Proof.
  intros [_ Hcp] Hp.
  pose proof (ceilDiv_spec (len (data (props i))) (itemsPerPage (props i))
                ltac:(lia)) as Hc.
  pose proof (len_nonneg (data (props i))) as Hn.
  assert (renderPager (props i) (state i) = None ↔ totalPages (props i) ≤ 1)
    as Hiff.
  { unfold renderPager.
    destruct (Z.ltb_spec 1 (totalPages (props i))); split; try done; lia. }
  assert (totalPages (props i) ≤ 1
          ↔ len (data (props i)) ≤ itemsPerPage (props i)) as Hfit.
  { unfold totalPages. split; intros; nia. }
  split; [by rewrite Hiff|].
  intros Hnone%Hiff. pose proof Hnone as Hle%Hfit. unfold paginatedData.
  rewrite pageSlice_take_drop by lia.
  replace (currentPage (state i)) with 1 by lia.
  rewrite Z.sub_diag, Z.mul_0_l. simpl. apply take_ge.
  pose proof (sortedData_length (data (props i)) (sortConfig (state i))) as Hl.
  unfold len in *. lia.
Qed.

(** X6: with a negative page size the table has a single page, and at
    rest that page shows all rows of the sorted view but the last
    |itemsPerPage| ones ([slice] counts a negative end from the back). *)
Theorem negative_page_size (i : Instance) :
  atRest i → itemsPerPage (props i) < 0 →
  totalPages (props i) = 1
  ∧ paginatedData (props i) (state i)
    = take (Z.to_nat (len (data (props i)) + itemsPerPage (props i)))
        (sortedData (data (props i)) (sortConfig (state i))).
Proof.
  intros [_ Hcp] Hp.
  pose proof (len_nonneg (data (props i))) as Hn.
  assert (totalPages (props i) = 1) as Htp.
  { unfold totalPages, ceilDiv.
    pose proof (Z.div_opp_opp (len (data (props i))) (- itemsPerPage (props i))
                  ltac:(lia)) as Ho.
    rewrite Z.opp_involutive in Ho.
    pose proof (Z.div_pos (len (data (props i))) (- itemsPerPage (props i))
                  ltac:(lia) ltac:(lia)) as Hd.
    rewrite Ho. lia. }
  split; [done|]. unfold paginatedData, pageSlice, slice.
  replace (currentPage (state i)) with 1 by lia.
  rewrite sortedData_length, Z.sub_diag, Z.mul_0_l, Z.add_0_l.
  destruct (Z.ltb_spec (itemsPerPage (props i)) 0); [|lia].
  simpl. rewrite (Z.min_l 0) by lia. simpl. f_equal. lia.
Qed.

End pages.

(** ** Sorting, once more *)

Section sorting_more.
Context `{!Collator}.

Lemma handle_page_frame i e :
  isNavigation e = false → isNewProps e = false →
  (handle i e).1.1 = props i
  ∧ currentPage (handle i e).1.2 = currentPage (state i).
Proof.
  destruct e; simpl; try done; intros _ _; split; try done.
  - unfold handleSort. by repeat case_match.
  - unfold handleSelectRow. by case_match.
  - unfold handleSelectAll. by repeat case_match.
Qed.

(** X7: only the footer buttons and new props move the page.  A header
    click, a row toggle or select-all on a table at rest leaves the props
    and the current page as they are: sorting does not send the user back
    to page 1. *)
Theorem only_navigation_moves_page fuel (i : Instance) (e : Event) :
  (2 ≤ fuel)%nat → atRest i →
  isNavigation e = false → isNewProps e = false →
  ∃ i' out,
    step fuel i e = Some (i', out)
    ∧ props i' = props i
    ∧ currentPage (state i') = currentPage (state i).
Proof.
  intros Hf [Hc Hcp] Hn Hp.
  destruct (handle_page_frame i e Hn Hp) as [Hpr Hpg].
  eexists _, _. rewrite step_spec by done. split; [done|].
  unfold afterEffects. cbn [props state]. split; [done|].
  rewrite currentPage_applyUpdates.
  unfold runEffects, pageResetEffect, pageClampEffect.
  cbn [props state committed]. rewrite Hc, Hpr, Hpg. simpl.
  rewrite decide_True by done. simpl.
  by rewrite (decide_True (P := _ ∧ _)) by done.
Qed.

(** X8: sorting never loses, duplicates or invents a row, whatever the
    configuration and whatever the comparator does: the sorted view has
    the rows of the input, each as often as the input has it. *)
Theorem sortedData_keeps_rows (d : list Row) (sc : option SortConfig) :
  sortedData d sc ≡ₚ d
  ∧ length (sortedData d sc) = length d
  ∧ (∀ r, r ∈ sortedData d sc ↔ r ∈ d).
Proof.
  pose proof (sortedData_Permutation d sc) as Hp. split_and!; [done|..].
  - by rewrite Hp.
  - intros r. by rewrite Hp.
Qed.

(** An ordered array splits into the rows with [f] and the rows without
    as soon as no row without [f] may stand before a row with [f]. *)
Lemma sorted_partition {A} (R : relation A) (f : A → bool) (l : list A) :
  StronglySorted R l →
  (∀ x y, f x = false → f y = true → ¬ R x y) →
  l = filter (λ x, f x = true) l ++ filter (λ x, f x = false) l.
Proof.
  intros Hs HR. induction Hs as [|x l Hs IH Hx]; [done|].
  rewrite !filter_cons. destruct (f x) eqn:Hfx.
  - rewrite decide_True, decide_False by done. simpl. by f_equal.
  - rewrite decide_False, decide_True by done.
    assert (filter (λ y, f y = true) l = []) as Hnil.
    { clear IH.
      induction l as [|y l IHl]; [done|].
      apply Forall_cons in Hx as [Hxy Hx].
      apply StronglySorted_inv in Hs as [Hs _].
      rewrite filter_cons_False; [by apply IHl|].
      intros Hfy. by apply (HR x y). }
    rewrite Hnil in IH |- *. simpl in *. by f_equal.
Qed.

Lemma filter_iff_in {A} (P Q : A → Prop) `{!∀ x, Decision (P x)}
    `{!∀ x, Decision (Q x)} (l : list A) :
  (∀ x, x ∈ l → (P x ↔ Q x)) → filter P l = filter Q l.
Proof.
  induction l as [|x l IH]; intros Hl; [done|].
  rewrite !filter_cons.
  assert (P x ↔ Q x) as Hx by (apply Hl; left).
  rewrite IH by (intros y Hy; apply Hl; by right).
  destruct (decide (P x)), (decide (Q x)); tauto || done.
Qed.

(** The rows without a value keep their input order under any sort. *)
Lemma nullish_rows_stable (c : SortConfig) (d : list Row) :
  Consistent (rowCompare c) d →
  filter (λ r, isNullish (getField r (key c)) = true) (sort (rowCompare c) d)
  = filter (λ r, isNullish (getField r (key c)) = true) d.
Proof.
  intros HL.
  destruct (decide (Exists (λ r, isNullish (getField r (key c)) = true) d))
    as [Hex|Hnone].
  - apply Exists_exists in Hex as (a & Ha & Na).
    assert (∀ y, rowCompare c a y = 0 ↔ isNullish (getField y (key c)) = true)
      as Hcls.
    { intros y. unfold rowCompare, compare. rewrite Na. simpl.
      destruct (isNullish (getField y (key c))), (direction c);
        split; (done || lia). }
    rewrite <- (filter_iff_in _ _ (sort (rowCompare c) d) (λ y _, Hcls y)).
    rewrite <- (filter_iff_in _ _ d (λ y _, Hcls y)).
    by apply (filter_sort_stable _ d HL).
  - assert (∀ l : list Row, l ⊆ d →
              filter (λ r, isNullish (getField r (key c)) = true) l = [])
      as Hnil.
    { intros l Hl. induction l as [|x l IH]; [done|].
      rewrite filter_cons_False; [apply IH; set_solver|].
      intros Hx. apply Hnone, Exists_exists. exists x. split; [|done].
      apply Hl. by left. }
    rewrite !Hnil; [done..|]. intros x. by rewrite elem_of_sort.
Qed.

(** X9: for a comparator that is consistent on the rows, an ascending
    sort shows the rows without a value under the sort key (missing, null
    or undefined) first and in their input order, followed by the rows
    with a value; a descending sort shows them last, again in their input
    order. *)
Theorem rows_without_value_first (k : string) (d : list Row) (dir : Direction) :
  Consistent (rowCompare {| key := k; direction := dir |}) d →
  let s := sortedData d (Some {| key := k; direction := dir |}) in
  let missing := filter (λ r, isNullish (getField r k) = true) d in
  let present := filter (λ r, isNullish (getField r k) = false) s in
  match dir with
  | asc => s = missing ++ present
  | desc => s = present ++ missing
  end.
Proof.
  intros HL s missing present.
  pose proof (sort_StronglySorted _ d HL d ltac:(done)) as Hs.
  pose proof (nullish_rows_stable _ d HL) as Hst. simpl in Hst.
  destruct dir; subst s missing present; simpl; rewrite <- Hst.
  - apply (sorted_partition _ (λ r, isNullish (getField r k)) _ Hs).
    intros x y Hx Hy. unfold cmp_le, rowCompare, compare. simpl.
    rewrite Hx, Hy. simpl. lia.
  - pose proof (sorted_partition _ (λ r, negb (isNullish (getField r k))) _ Hs)
      as Hpart.
    rewrite (filter_iff_in (λ r, isNullish (getField r k) = false)
               (λ r, negb (isNullish (getField r k)) = true))
      by (intros x _; by destruct (isNullish (getField x k))).
    rewrite (filter_iff_in (λ r, isNullish (getField r k) = true)
               (λ r, negb (isNullish (getField r k)) = false))
      by (intros x _; by destruct (isNullish (getField x k))).
    apply Hpart.
    intros x y Hx Hy. unfold cmp_le, rowCompare, compare. simpl.
    apply negb_false_iff in Hx. apply negb_true_iff in Hy.
    rewrite Hx, Hy. simpl. lia.
Qed.

Lemma StronglySorted_reverse_flip {A} (R R' : relation A) (l : list A) :
  StronglySorted R l →
  (∀ x y, x ∈ l → y ∈ l → R x y → R' y x) →
  StronglySorted R' (reverse l).
Proof.
  intros Hs. induction Hs as [|x l Hs IH Hx]; intros HR; [constructor|].
  rewrite reverse_cons. apply StronglySorted_app_2.
  - intros y z Hy ->%list_elem_of_singleton.
    rewrite elem_of_reverse in Hy. rewrite Forall_forall in Hx.
    apply HR; [by left|by right|by apply Hx].
  - apply IH. intros y z Hy Hz. apply HR; by right.
  - repeat constructor.
Qed.

(** X10: when the comparator is consistent on the rows and no two rows
    compare equal under the sort key, the descending view is the
    ascending view read backwards. *)
Theorem descending_reverses_ascending (k : string) (d : list Row) :
  Consistent (rowCompare {| key := k; direction := asc |}) d →
  (∀ a, a ∈ d →
     filter (λ y, rowCompare {| key := k; direction := asc |} a y = 0) d = [a]) →
  sortedData d (Some {| key := k; direction := desc |})
  = reverse (sortedData d (Some {| key := k; direction := asc |})).
Proof.
  intros HL Hdistinct. simpl.
  set (up := rowCompare {| key := k; direction := asc |}) in *.
  change (rowCompare {| key := k; direction := desc |}) with (λ x y, - up x y).
  symmetry. apply sort_unique.
  - by apply Consistent_opp.
  - by rewrite reverse_Permutation, sort_Permutation.
  - apply (StronglySorted_reverse_flip (cmp_le up)).
    + by apply (sort_StronglySorted _ d HL).
    + intros x y Hx%elem_of_sort Hy%elem_of_sort Hxy. unfold cmp_le in *.
      destruct (Z.eq_dec (up x y) 0) as [E|Hne].
      * rewrite (cf_sym _ _ HL x y Hx Hy E). lia.
      * pose proof (cf_lt_gt _ d HL x y Hx Hy ltac:(lia)). lia.
  - intros a Ha.
    rewrite (filter_iff_in (λ y, - up a y = 0) (λ y, up a y = 0))
      by (intros; lia).
    rewrite (filter_iff_in (λ y, - up a y = 0) (λ y, up a y = 0) d)
      by (intros; lia).
    rewrite filter_reverse, (filter_sort_stable _ d HL) by done.
    by rewrite (Hdistinct a Ha).
Qed.

End sorting_more.

(** ** V8's sort of a short array *)

Section engine_facts.
Context {A : Type} (cmp : A → A → Z).

Lemma filter_none (P : A → Prop) `{!∀ x, Decision (P x)} (l : list A) :
  (∀ x, x ∈ l → ¬ P x) → filter P l = [].
Proof.
  induction l as [|x l IH]; intros Hl; [done|].
  rewrite filter_cons, decide_False by (apply Hl; by left).
  apply IH. intros y Hy. apply Hl. by right.
Qed.

Lemma Sorted_weaken (R R' : relation A) (l : list A) :
  (∀ x y, x ∈ l → y ∈ l → R x y → R' x y) → Sorted R l → Sorted R' l.
Proof.
  intros HR Hs. induction Hs as [|x l Hs IH Hx]; [constructor|].
  constructor.
  - apply IH. intros y z Hy Hz. apply HR; by right.
  - destruct Hx as [|y l Hxy]; constructor.
    apply HR; [by left|by right; left|done].
Qed.

Lemma binaryInsert_Permutation a pivot : binaryInsert cmp a pivot ≡ₚ pivot :: a.
Proof.
  unfold binaryInsert.
  rewrite <- Permutation_middle. by rewrite take_drop.
Qed.

Lemma binaryInsertionSort_Permutation run rest :
  binaryInsertionSort cmp run rest ≡ₚ run ++ rest.
Proof.
  unfold binaryInsertionSort. revert run.
  induction rest as [|x rest IH]; intros run; simpl.
  - by rewrite app_nil_r.
  - rewrite IH, binaryInsert_Permutation. simpl. apply Permutation_middle.
Qed.

(** The run and the rest are the array cut in two, the first part turned
    around if it descends. *)
Lemma countAndMakeRun_cut l :
  ∃ n, (countAndMakeRun cmp l).2 = drop n l
       ∧ ((countAndMakeRun cmp l).1 = take n l
          ∨ (countAndMakeRun cmp l).1 = reverse (take n l)).
Proof.
  unfold countAndMakeRun.
  destruct l as [|x [|y l]].
  - exists 0%nat. split; [done|by left].
  - exists 1%nat. split; [done|by left].
  - destruct (cmp y x <? 0).
    + exists (2 + runLength cmp true y l)%nat. split; [done|by right].
    + exists (2 + runLength cmp false y l)%nat. split; [done|by left].
Qed.

Lemma countAndMakeRun_Permutation l :
  (countAndMakeRun cmp l).1 ++ (countAndMakeRun cmp l).2 ≡ₚ l.
Proof.
  destruct (countAndMakeRun_cut l) as (n & -> & [-> | ->]).
  - by rewrite take_drop.
  - by rewrite reverse_Permutation, take_drop.
Qed.

Lemma countAndMakeRun_subseteq l :
  (countAndMakeRun cmp l).1 ⊆ l ∧ (countAndMakeRun cmp l).2 ⊆ l.
Proof.
  split; intros z Hz; rewrite <- countAndMakeRun_Permutation;
    apply elem_of_app; [by left|by right].
Qed.

Lemma arrayTimSort_Permutation l : arrayTimSort cmp l ≡ₚ l.
Proof.
  unfold arrayTimSort.
  by rewrite binaryInsertionSort_Permutation, countAndMakeRun_Permutation.
Qed.

(** The elements that continue a run do so one after the other. *)
Lemma runLength_chain (isDescending : bool) prev l :
  Sorted (λ x y, if isDescending then cmp y x < 0 else 0 ≤ cmp y x)
    (prev :: take (runLength cmp isDescending prev l) l).
Proof.
  revert prev. induction l as [|x l IH]; intros prev; simpl.
  { repeat constructor. }
  destruct isDescending.
  - destruct (Z.ltb_spec (cmp x prev) 0); simpl; [|by repeat constructor].
    constructor; [apply IH|by constructor].
  - destruct (Z.leb_spec 0 (cmp x prev)); simpl; [|by repeat constructor].
    constructor; [apply IH|by constructor].
Qed.

Section consistent.
Context (L : list A) (HL : Consistent cmp L).

Lemma cf_ge_le a b : a ∈ L → b ∈ L → 0 ≤ cmp b a → cmp a b ≤ 0.
Proof.
  intros Ha Hb Hba.
  destruct (Z.eq_dec (cmp b a) 0) as [E|N].
  - apply (cf_sym _ _ HL) in E; [lia|done..].
  - pose proof (cf_gt_lt cmp L HL b a Hb Ha ltac:(lia)). lia.
Qed.

Lemma cmp_lt_le_trans a b c :
  a ∈ L → b ∈ L → c ∈ L → cmp a b < 0 → cmp b c ≤ 0 → cmp a c < 0.
Proof.
  intros Ha Hb Hc Hab Hbc.
  destruct (Z.eq_dec (cmp b c) 0) as [Ebc|Nbc].
  - destruct (Z.lt_trichotomy (cmp a c) 0) as [?|[Eac|Hac]]; [done| |].
    + apply (cf_sym _ _ HL) in Ebc; [|done..].
      pose proof (cf_eq_trans _ _ HL a c b Ha Hc Hb Eac Ebc). lia.
    + pose proof (cf_gt_lt cmp L HL a c Ha Hc Hac) as Hca.
      pose proof (cf_lt_trans _ _ HL c a b Hc Ha Hb Hca Hab) as Hcb.
      apply (cf_sym _ _ HL) in Ebc; [lia|done..].
  - apply (cf_lt_trans _ _ HL a b c); [done..|lia].
Qed.

(** A chain of neighbours in order is in order as a whole. *)
Lemma chain_StronglySorted (R : relation A) l :
  (∀ a b c, a ∈ L → b ∈ L → c ∈ L → R a b → R b c → R a c) →
  l ⊆ L → Sorted R l → StronglySorted R l.
Proof.
  intros Htr Hl Hs. induction Hs as [|x l Hs IH Hx]; [constructor|].
  assert (l ⊆ L) as Hl' by set_solver.
  specialize (IH Hl'). constructor; [done|].
  destruct Hx as [|y l Hxy]; [constructor|].
  apply StronglySorted_inv in IH as [_ Hy].
  constructor; [done|].
  rewrite Forall_forall in Hy |- *. intros z Hz.
  apply (Htr x y z); [set_solver..|done|by apply Hy].
Qed.

(** Among rows that descend strictly no two compare equal. *)
Lemma filter_descending a l :
  a ∈ L → l ⊆ L →
  StronglySorted (λ x y, cmp y x < 0) l →
  filter (λ y, cmp a y = 0) (reverse l) = filter (λ y, cmp a y = 0) l.
Proof.
  intros Ha Hl Hs. induction Hs as [|x l Hs IH Hx]; [done|].
  assert (x ∈ L) as HxL by set_solver.
  assert (l ⊆ L) as Hl' by set_solver.
  rewrite reverse_cons, filter_app, IH by done.
  rewrite (filter_cons _ x l). destruct (decide (cmp a x = 0)) as [Hax|Hax].
  - assert (filter (λ y, cmp a y = 0) l = []) as ->.
    { apply filter_none. intros z Hz Haz.
      rewrite Forall_forall in Hx. specialize (Hx z Hz). simpl in Hx.
      apply (cf_sym _ _ HL) in Haz; [|set_solver..].
      pose proof (cf_eq_trans _ _ HL z a x ltac:(set_solver) Ha HxL Haz Hax).
      lia. }
    rewrite filter_cons. by rewrite decide_True.
  - rewrite filter_cons, decide_False by done.
    rewrite filter_nil. by rewrite app_nil_r.
Qed.

(** The run as the array has it, before it is turned around. *)
Lemma run_chain l :
  l ⊆ L →
  ∃ n, (countAndMakeRun cmp l).2 = drop n l
       ∧ ((countAndMakeRun cmp l).1 = take n l
            ∧ StronglySorted (cmp_le cmp) (take n l)
          ∨ (countAndMakeRun cmp l).1 = reverse (take n l)
            ∧ StronglySorted (λ x y, cmp y x < 0) (take n l)).
Proof.
  intros Hl. unfold countAndMakeRun.
  destruct l as [|x [|y l]].
  - exists 0%nat. split; [done|]. left. split; [done|]. constructor.
  - exists 1%nat. split; [done|]. left. split; [done|]. repeat constructor.
  - assert (x ∈ L ∧ y ∈ L ∧ l ⊆ L) as (HxL & HyL & HlL) by set_solver.
    pose proof (runLength_chain (cmp y x <? 0) y l) as Hch.
    assert (∀ b, x :: y :: take (runLength cmp b y l) l ⊆ L) as Hsub.
    { intros b z Hz. apply elem_of_cons in Hz as [->|Hz]; [done|].
      apply elem_of_cons in Hz as [->|Hz]; [done|].
      by apply HlL, (subseteq_take (runLength cmp b y l)). }
    destruct (Z.ltb_spec (cmp y x) 0) as [Hyx|Hyx].
    + exists (2 + runLength cmp true y l)%nat. split; [done|]. right.
      split; [done|]. simpl. apply chain_StronglySorted; [|done|].
      * intros a b c Ha Hb Hc Hab Hbc. by apply (cf_lt_trans _ _ HL c b a).
      * constructor; [done|]. by constructor.
    + exists (2 + runLength cmp false y l)%nat. split; [done|]. left.
      split; [done|]. simpl. apply chain_StronglySorted; [|done|].
      * intros a b c. by apply (cmp_le_trans cmp L HL).
      * apply (Sorted_weaken (λ x y, 0 ≤ cmp y x)).
        { intros a b Ha Hb. apply cf_ge_le; by eapply Hsub. }
        constructor; [done|]. by constructor.
Qed.

Lemma sorted_lookup (R : relation A) (a : list A) i j x y :
  StronglySorted R a → (i < j)%nat → a !! i = Some x → a !! j = Some y → R x y.
Proof.
  intros Hs Hij Hi Hj. rewrite <- (take_drop j a) in Hs.
  apply (StronglySorted_app_1_elem_of _ _ _ x y Hs).
  - apply elem_of_take. by exists i.
  - apply list_elem_of_lookup. exists 0%nat.
    by rewrite lookup_drop, Nat.add_0_r.
Qed.

(** The search ends behind the last element that [pivot] does not compare
    below, and the rounds it is given are enough to get there. *)
Lemma binarySearch_spec pivot a fuel left right :
  pivot ∈ L → a ⊆ L → StronglySorted (cmp_le cmp) a →
  (right - left ≤ fuel)%nat → (left ≤ right ≤ length a)%nat →
  (∀ j e, (j < left)%nat → a !! j = Some e → 0 ≤ cmp pivot e) →
  (∀ j e, (right ≤ j)%nat → a !! j = Some e → cmp pivot e < 0) →
  (binarySearch fuel cmp pivot a left right ≤ length a)%nat
  ∧ (∀ j e, (j < binarySearch fuel cmp pivot a left right)%nat →
       a !! j = Some e → 0 ≤ cmp pivot e)
  ∧ (∀ j e, (binarySearch fuel cmp pivot a left right ≤ j)%nat →
       a !! j = Some e → cmp pivot e < 0).
Proof.
  intros Hp Ha Hs. revert left right.
  induction fuel as [|fuel IH]; intros left right Hfuel Hlr Hlow Hhigh; simpl.
  { assert (left = right) as -> by lia. split_and!; [lia|done..]. }
  destruct (Nat.ltb_spec left right) as [Hlt|Hge].
  2: { assert (left = right) as -> by lia. split_and!; [lia|done..]. }
  set (mid := (left + Nat.div2 (right - left))%nat).
  assert (left ≤ mid < right)%nat as Hmid.
  { unfold mid. pose proof (Nat.lt_div2 (right - left) ltac:(lia)) as Hd.
    revert Hd. generalize (Nat.div2 (right - left)). intros d Hd. lia. }
  clearbody mid.
  destruct (lookup_lt_is_Some_2 a mid ltac:(lia)) as [e He].
  rewrite He.
  assert (e ∈ L) as HeL by (by eapply Ha, list_elem_of_lookup_2).
  destruct (Z.ltb_spec (cmp pivot e) 0) as [Hpe|Hpe].
  - apply IH; [lia|lia|done|].
    intros j y Hj Hy.
    destruct (decide (j = mid)) as [->|Hne]; [congruence|].
    apply (cmp_lt_le_trans pivot e y); [done..| |done|].
    + by eapply Ha, list_elem_of_lookup_2.
    + apply (sorted_lookup (cmp_le cmp) a mid j); [done|lia|done..].
  - apply IH; [lia|lia| |done].
    intros j y Hj Hy.
    destruct (decide (j = mid)) as [->|Hne]; [congruence|].
    destruct (Z.lt_ge_cases (cmp pivot y) 0) as [Hpy|]; [|lia].
    assert (cmp pivot e < 0); [|lia].
    apply (cmp_lt_le_trans pivot y e); [done| |done..|].
    + by eapply Ha, list_elem_of_lookup_2.
    + apply (sorted_lookup (cmp_le cmp) a j mid); [done|lia|done..].
Qed.

(** Where [pivot] is put: after the elements it does not compare below,
    before the ones it does. *)
Lemma binaryInsert_place pivot a :
  pivot ∈ L → a ⊆ L → StronglySorted (cmp_le cmp) a →
  ∃ k, binaryInsert cmp a pivot = take k a ++ pivot :: drop k a
       ∧ (∀ e, e ∈ take k a → 0 ≤ cmp pivot e)
       ∧ (∀ e, e ∈ drop k a → cmp pivot e < 0).
Proof.
  intros Hp Ha Hs.
  destruct (binarySearch_spec pivot a (length a) 0 (length a) Hp Ha Hs)
    as (_ & Hlow & Hhigh); [lia|lia|intros; lia| |].
  { intros j e Hj He. apply lookup_lt_Some in He. lia. }
  exists (binarySearch (length a) cmp pivot a 0 (length a)).
  split; [done|]. split.
  - intros e He. apply elem_of_take in He as (j & Hj & Hjk). by eapply Hlow.
  - intros e He. apply list_elem_of_lookup in He as (j & Hj).
    rewrite lookup_drop in Hj. eapply Hhigh; [|done]. lia.
Qed.

Lemma binaryInsert_sorted pivot a :
  pivot ∈ L → a ⊆ L → StronglySorted (cmp_le cmp) a →
  StronglySorted (cmp_le cmp) (binaryInsert cmp a pivot).
Proof.
  intros Hp Ha Hs.
  destruct (binaryInsert_place pivot a Hp Ha Hs) as (k & -> & Hlow & Hhigh).
  rewrite <- (take_drop k a) in Hs.
  apply StronglySorted_app in Hs as (Hcross & Hs1 & Hs2).
  apply StronglySorted_app_2; [|done|].
  - intros x y Hx Hy. apply elem_of_cons in Hy as [->|Hy]; [|by apply Hcross].
    apply cf_ge_le; [|done|by apply Hlow].
    by apply Ha, (subseteq_take k).
  - constructor; [done|]. apply Forall_forall. intros y Hy.
    specialize (Hhigh y Hy). unfold cmp_le. lia.
Qed.

Lemma binaryInsert_stable x pivot a :
  x ∈ L → pivot ∈ L → a ⊆ L → StronglySorted (cmp_le cmp) a →
  filter (λ y, cmp x y = 0) (binaryInsert cmp a pivot)
  = filter (λ y, cmp x y = 0) (a ++ [pivot]).
Proof.
  intros Hx Hp Ha Hs.
  destruct (binaryInsert_place pivot a Hp Ha Hs) as (k & -> & Hlow & Hhigh).
  rewrite <- (take_drop k a) at 3.
  rewrite !filter_app, <- app_assoc. f_equal.
  rewrite filter_cons, (filter_cons _ pivot []), filter_nil.
  destruct (decide (cmp x pivot = 0)) as [Hxp|Hxp]; [|by rewrite app_nil_r].
  rewrite filter_none; [done|].
  intros y Hy Hxy. specialize (Hhigh y Hy).
  assert (y ∈ L) as HyL by (by apply Ha, (subseteq_drop k)).
  apply (cf_sym _ _ HL) in Hxp; [|done..].
  pose proof (cf_eq_trans _ _ HL pivot x y Hp Hx HyL Hxp Hxy). lia.
Qed.

Lemma binaryInsert_subseteq pivot a :
  pivot ∈ L → a ⊆ L → binaryInsert cmp a pivot ⊆ L.
Proof.
  intros Hp Ha z. rewrite binaryInsert_Permutation.
  intros [->|Hz]%elem_of_cons; [done|by apply Ha].
Qed.

Lemma binaryInsertionSort_sorted run rest :
  run ⊆ L → rest ⊆ L → StronglySorted (cmp_le cmp) run →
  StronglySorted (cmp_le cmp) (binaryInsertionSort cmp run rest).
Proof.
  unfold binaryInsertionSort. revert run.
  induction rest as [|x rest IH]; intros run Hrun Hrest Hs; simpl; [done|].
  assert (x ∈ L) as HxL by (apply Hrest; by left).
  apply IH.
  - by apply binaryInsert_subseteq.
  - intros z Hz. apply Hrest. by right.
  - by apply binaryInsert_sorted.
Qed.

Lemma binaryInsertionSort_stable x run rest :
  x ∈ L → run ⊆ L → rest ⊆ L → StronglySorted (cmp_le cmp) run →
  filter (λ y, cmp x y = 0) (binaryInsertionSort cmp run rest)
  = filter (λ y, cmp x y = 0) (run ++ rest).
Proof.
  intros Hx. unfold binaryInsertionSort. revert run.
  induction rest as [|y rest IH]; intros run Hrun Hrest Hs; simpl.
  { by rewrite app_nil_r. }
  assert (y ∈ L) as HyL by (apply Hrest; by left).
  rewrite IH.
  - rewrite filter_app, binaryInsert_stable by done.
    by rewrite <- filter_app, <- app_assoc.
  - by apply binaryInsert_subseteq.
  - intros z Hz. apply Hrest. by right.
  - by apply binaryInsert_sorted.
Qed.

End consistent.

(** V8's sort of a short array meets the contract. *)
Lemma arrayTimSort_sorted l :
  Consistent cmp l → StronglySorted (cmp_le cmp) (arrayTimSort cmp l).
Proof.
  intros HL. unfold arrayTimSort.
  destruct (run_chain l HL l) as (n & Hrest & Hrun); [done|].
  pose proof (countAndMakeRun_subseteq l) as [Hsub1 Hsub2].
  apply (binaryInsertionSort_sorted l HL); [done..|].
  destruct Hrun as [[-> Hs]|[-> Hs]]; [done|].
  apply (StronglySorted_reverse_flip (λ x y, cmp y x < 0)); [done|].
  intros a b _ _ Hab. unfold cmp_le. lia.
Qed.

Lemma arrayTimSort_stable l x :
  Consistent cmp l → x ∈ l →
  filter (λ y, cmp x y = 0) (arrayTimSort cmp l) = filter (λ y, cmp x y = 0) l.
Proof.
  intros HL Hx. unfold arrayTimSort.
  destruct (run_chain l HL l) as (n & Hrest & Hrun); [done|].
  pose proof (countAndMakeRun_subseteq l) as [Hsub1 Hsub2].
  rewrite (binaryInsertionSort_stable l HL); [|done..|].
  - rewrite filter_app, Hrest.
    rewrite <- (take_drop n l) at 3. rewrite filter_app. f_equal.
    destruct Hrun as [[-> Hs]|[-> Hs]]; [done|].
    apply (filter_descending l HL); [done|apply subseteq_take|done].
  - destruct Hrun as [[-> Hs]|[-> Hs]]; [done|].
    apply (StronglySorted_reverse_flip (λ x y, cmp y x < 0)); [done|].
    intros a b _ _ Hab. unfold cmp_le. lia.
Qed.

End engine_facts.

Lemma arrayTimSort_conforming {A} : ConformingSort (@arrayTimSort A).
Proof.
  split.
  - apply arrayTimSort_Permutation.
  - apply arrayTimSort_sorted.
  - intros cmp l a. apply arrayTimSort_stable.
Qed.

Lemma sort_conforming {A} : ConformingSort (@sort A).
Proof.
  split.
  - apply sort_Permutation.
  - intros cmp l Hl. by apply (sort_StronglySorted cmp l Hl).
  - intros cmp l a Hl Ha. by apply (filter_sort_stable cmp l Hl).
Qed.

(** ** Selection, once more *)

Section selection_more.
Context `{!Collator}.

Lemma toggleRow_twice (S : gset Id) x :
  toggleRow multiple (toggleRow multiple S x) x = S.
Proof.
  unfold toggleRow. destruct (decide (x ∈ S)) as [Hin|Hout].
  - rewrite decide_False by (rewrite elem_of_difference, elem_of_singleton; tauto).
    apply set_eq. intros y.
    rewrite elem_of_union, elem_of_difference, elem_of_singleton.
    destruct (decide (y = x)) as [->|]; tauto.
  - rewrite decide_True by (rewrite elem_of_union, elem_of_singleton; tauto).
    apply set_eq. intros y.
    rewrite elem_of_difference, elem_of_union, elem_of_singleton.
    split; [tauto|]. intros Hy. split; [tauto|]. by intros ->.
Qed.

Lemma elem_of_toggleRow (S : gset Id) x y :
  y ∈ toggleRow multiple S x ↔ (y ∈ S ∧ y ≠ x) ∨ (y = x ∧ x ∉ S).
Proof.
  unfold toggleRow. destruct (decide (x ∈ S)) as [Hin|Hout].
  - rewrite elem_of_difference, elem_of_singleton. split; [tauto|].
    intros [?|[-> ?]]; tauto.
  - rewrite elem_of_union, elem_of_singleton. split.
    + intros [Hy| ->]; [|tauto]. left. split; [done|]. by intros ->.
    + tauto.
Qed.

Lemma toggleRow_comm (S : gset Id) x y :
  toggleRow multiple (toggleRow multiple S x) y
  = toggleRow multiple (toggleRow multiple S y) x.
Proof.
  apply set_eq. intros z. rewrite !elem_of_toggleRow.
  destruct (decide (z = x)), (decide (z = y)), (decide (x = y));
    subst; intuition congruence.
Qed.

(** X11: in multiple mode, with selection enabled, ticking a row twice
    gives back the selection there was, and ticking two rows gives the
    same selection in either order. *)
Theorem toggle_twice_restores fuel (i : Instance) (a b : Row) :
  (2 ≤ fuel)%nat →
  selectable (props i) = true → selectionMode (props i) = multiple →
  (∃ i1 out1 i2 out2,
     step fuel i (ToggleRow a) = Some (i1, out1)
     ∧ step fuel i1 (ToggleRow a) = Some (i2, out2)
     ∧ selectedRows (state i2) = selectedRows (state i)) ∧
  (∃ i1 out1 i2 out2 j1 out1' j2 out2',
     step fuel i (ToggleRow a) = Some (i1, out1)
     ∧ step fuel i1 (ToggleRow b) = Some (i2, out2)
     ∧ step fuel i (ToggleRow b) = Some (j1, out1')
     ∧ step fuel j1 (ToggleRow a) = Some (j2, out2')
     ∧ selectedRows (state i2) = selectedRows (state j2)).
Proof.
  intros Hf Hsel Hm.
  assert (∀ j r, props j = props i →
            ∃ j', step fuel j (ToggleRow r) = Some (j', (handle j (ToggleRow r)).2)
                  ∧ props j' = props i
                  ∧ selectedRows (state j')
                    = toggleRow multiple (selectedRows (state j)) (id r))
    as Hstep.
  { intros j r Hp.
    destruct (step_frame fuel j (ToggleRow r) Hf) as (j' & Hj & P & _ & Hs).
    exists j'. split_and!; [done|by rewrite P|]. rewrite Hs. simpl.
    unfold handleSelectRow. by rewrite Hp, Hsel, Hm. }
  split.
  - destruct (Hstep i a eq_refl) as (i1 & H1 & P1 & S1).
    destruct (Hstep i1 a P1) as (i2 & H2 & P2 & S2).
    eexists _, _, _, _. split_and!; [done..|].
    by rewrite S2, S1, toggleRow_twice.
  - destruct (Hstep i a eq_refl) as (i1 & H1 & P1 & S1).
    destruct (Hstep i1 b P1) as (i2 & H2 & P2 & S2).
    destruct (Hstep i b eq_refl) as (j1 & G1 & Q1 & T1).
    destruct (Hstep j1 a Q1) as (j2 & G2 & Q2 & T2).
    eexists _, _, _, _, _, _, _, _. split_and!; [done..|].
    by rewrite S2, S1, T2, T1, toggleRow_comm.
Qed.

Lemma size_add_le (x : Id) (X : gset Id) : (size ({[x]} ∪ X) ≤ S (size X))%nat.
Proof.
  rewrite size_union_alt, size_singleton.
  assert (X ∖ {[x]} ⊆ X) as Hsub.
  { intros y Hy. apply elem_of_difference in Hy. tauto. }
  apply subseteq_size in Hsub. lia.
Qed.

Lemma size_allIds_le (d : list Row) : (size (allIds d) ≤ length d)%nat.
Proof.
  unfold allIds. induction d as [|r d IH].
  - change (size (∅ : gset Id) ≤ 0)%nat. by rewrite size_empty.
  - change (size ({[id r]} ∪ list_to_set (id <$> d) : gset Id) ≤ S (length d))%nat.
    pose proof (size_add_le (id r) (list_to_set (id <$> d))). lia.
Qed.

Lemma size_allIds_NoDup (d : list Row) :
  NoDup (id <$> d) → size (allIds d) = length d.
Proof. intros Hd. unfold allIds. by rewrite size_list_to_set, length_fmap. Qed.

Lemma size_allIds_dup (d : list Row) :
  ¬ NoDup (id <$> d) → (size (allIds d) < length d)%nat.
Proof.
  induction d as [|r d IH]; simpl; intros Hd.
  - destruct Hd. constructor.
  - destruct (decide (id r ∈ id <$> d)) as [Hin|Hout].
    + assert (allIds (r :: d) = allIds d) as ->.
      { unfold allIds. simpl. apply set_eq. intros y.
        rewrite elem_of_union, elem_of_singleton, !elem_of_list_to_set.
        split; [intros [->|]; done|tauto]. }
      pose proof (size_allIds_le d). lia.
    + assert (¬ NoDup (id <$> d)) as Hd'.
      { intros Hnd. apply Hd. by constructor. }
      specialize (IH Hd'). unfold allIds in *.
      change (size ({[id r]} ∪ list_to_set (id <$> d) : gset Id) < S (length d))%nat.
      pose proof (size_add_le (id r) (list_to_set (id <$> d))). lia.
Qed.

Lemma step_ToggleAll fuel i :
  (2 ≤ fuel)%nat →
  selectable (props i) = true → selectionMode (props i) = multiple →
  ∃ i', step fuel i ToggleAll
        = Some (i', notifySelection (props i) (selectedRows (state i')))
        ∧ props i' = props i
        ∧ selectedRows (state i')
          = if decide (Z.of_nat (size (selectedRows (state i))) = len (data (props i)))
            then ∅ else allIds (data (props i)).
Proof.
  intros Hf Hsel Hm.
  destruct (step_frame fuel i ToggleAll Hf) as (i' & Hi & P & _ & Hs).
  exists i'. simpl in *. unfold handleSelectAll in *.
  rewrite Hsel, Hm in *. simpl in *.
  case_decide; simpl in *; by rewrite Hi, Hs.
Qed.

(** X12: when the row ids are pairwise distinct and there is at least one
    row, select-all is a switch.  From a selection that does not have as
    many ids as there are rows it selects every row, hands all rows to
    the callback and its box shows checked; the next click empties the
    selection, hands the callback no row and the box shows unchecked. *)
Theorem select_all_round_trip fuel (i : Instance) :
  (2 ≤ fuel)%nat →
  selectable (props i) = true → selectionMode (props i) = multiple →
  NoDup (id <$> data (props i)) → 0 < len (data (props i)) →
  Z.of_nat (size (selectedRows (state i))) ≠ len (data (props i)) →
  ∃ i1 i2,
    step fuel i ToggleAll
    = Some (i1, if onRowSelect (props i) then [data (props i)] else [])
    ∧ selectedRows (state i1) = allIds (data (props i))
    ∧ selectAllChecked (props i1) (state i1) = true
    ∧ step fuel i1 ToggleAll
      = Some (i2, if onRowSelect (props i) then [[]] else [])
    ∧ selectedRows (state i2) = ∅
    ∧ selectAllChecked (props i2) (state i2) = false.
Proof.
  intros Hf Hsel Hm Hnd Hn Hsz.
  destruct (step_ToggleAll fuel i Hf Hsel Hm) as (i1 & H1 & P1 & S1).
  rewrite decide_False in S1 by done.
  destruct (step_ToggleAll fuel i1 Hf) as (i2 & H2 & P2 & S2);
    [by rewrite P1..|].
  pose proof (size_allIds_NoDup _ Hnd) as Hall. unfold len in *.
  rewrite S1, P1, decide_True in S2 by lia.
  exists i1, i2. split_and!; try done.
  - rewrite H1, S1. unfold notifySelection. by rewrite materialize_allIds.
  - unfold selectAllChecked. rewrite S1, P1, bool_decide_true by (unfold len; lia).
    by apply Z.ltb_lt.
  - rewrite H2, S2, P1. unfold notifySelection. by rewrite materialize_empty.
  - unfold selectAllChecked. rewrite S2, P2, P1, size_empty.
    by rewrite bool_decide_false by (unfold len; lia).
Qed.

(** X13: when two rows share an id and the selection holds only ids of
    rows, the select-all box never shows checked and select-all never
    deselects: every click on it selects all rows again. *)
Theorem duplicate_ids_block_deselect fuel (i : Instance) :
  (2 ≤ fuel)%nat →
  selectable (props i) = true → selectionMode (props i) = multiple →
  ¬ NoDup (id <$> data (props i)) →
  selectedRows (state i) ⊆ allIds (data (props i)) →
  selectAllChecked (props i) (state i) = false
  ∧ ∃ i', step fuel i ToggleAll
          = Some (i', if onRowSelect (props i) then [data (props i)] else [])
          ∧ selectedRows (state i') = allIds (data (props i))
          ∧ selectAllChecked (props i') (state i') = false.
Proof.
  intros Hf Hsel Hm Hdup Hsub.
  pose proof (size_allIds_dup _ Hdup) as Hlt.
  pose proof (subseteq_size _ _ Hsub) as Hle.
  assert (∀ st, selectedRows st ⊆ allIds (data (props i)) →
            selectAllChecked (props i) st = false) as Hunchecked.
  { intros st Hst. pose proof (subseteq_size _ _ Hst).
    unfold selectAllChecked, len.
    by rewrite bool_decide_false by lia. }
  split; [by apply Hunchecked|].
  destruct (step_ToggleAll fuel i Hf Hsel Hm) as (i' & Hi & P & S).
  rewrite decide_False in S by (unfold len; lia).
  exists i'. split_and!; [|done|].
  - rewrite Hi, S. unfold notifySelection. by rewrite materialize_allIds.
  - rewrite P. apply Hunchecked. by rewrite S.
Qed.

(** X14: when the row ids are pairwise distinct, there is at least one
    row and the selection holds only ids of rows, the select-all box
    shows checked exactly when every row is selected. *)
Theorem select_all_checked_iff (p : Props) (st : State) :
  NoDup (id <$> data p) → 0 < len (data p) →
  selectedRows st ⊆ allIds (data p) →
  selectAllChecked p st = true ↔ ∀ r, r ∈ data p → id r ∈ selectedRows st.
Proof.
  intros Hnd Hn Hsub. pose proof (size_allIds_NoDup _ Hnd) as Hall.
  unfold selectAllChecked, len in *.
  rewrite andb_true_iff, bool_decide_eq_true, Z.ltb_lt. split.
  - intros [Hsz _] r Hr.
    assert (selectedRows st = allIds (data p)) as ->.
    { apply set_subseteq_size_eq; [done|lia]. }
    apply elem_of_allIds. eauto.
  - intros Hevery. split; [|done].
    assert (selectedRows st = allIds (data p)) as ->; [|lia].
    apply set_eq. intros x. split; [apply Hsub|].
    intros (r & Hr & <-)%elem_of_allIds. by apply Hevery.
Qed.

End selection_more.

(** ** What the rendered table lets the user do *)

Section offered_events.
Context `{!Collator}.

Lemma elem_of_slice {A} (l : list A) a b x : x ∈ slice l a b → x ∈ l.
Proof.
  unfold slice. intros Hx.
  apply (subseteq_drop (Z.to_nat
           (if a <? 0 then Z.max (len l + a) 0 else Z.min a (len l))) l).
  by apply (subseteq_take _ _ _ Hx).
Qed.

Lemma elem_of_paginatedData p st r : r ∈ paginatedData p st → r ∈ data p.
Proof.
  unfold paginatedData, pageSlice. intros Hr%elem_of_slice.
  by rewrite sortedData_Permutation in Hr.
Qed.

Lemma offered_ToggleRow i row :
  offered i (ToggleRow row) = true →
  selectable (props i) = true ∧ row ∈ data (props i).
Proof.
  unfold offered, render.
  destruct (loading (props i)); [done|]. case_bool_decide; [done|].
  intros [Hs Hr%bool_decide_eq_true]%andb_true_iff. split; [done|].
  simpl in Hr. rewrite <- list_fmap_compose in Hr.
  apply list_elem_of_fmap in Hr as (r & -> & Hr).
  by apply elem_of_paginatedData in Hr.
Qed.

Lemma handle_selection_within i e :
  isNewProps e = false → offered i e = true →
  selectedRows (state i) ⊆ allIds (data (props i)) →
  (handle i e).1.1 = props i
  ∧ selectedRows (handle i e).1.2 ⊆ allIds (data (props i)).
Proof.
  intros He Ho Hsub. destruct e; simpl; try done.
  - split; [done|]. unfold handleSort. by repeat case_match.
  - apply offered_ToggleRow in Ho as [Hs Hr]. split; [done|].
    unfold handleSelectRow, toggleRow. rewrite Hs. simpl.
    assert (id row ∈ allIds (data (props i))) as Hid
      by (apply elem_of_allIds; eauto).
    intros x. destruct (selectionMode (props i)); case_decide;
      rewrite ?elem_of_difference, ?elem_of_union, ?elem_of_singleton;
      try (by intros ?%not_elem_of_empty).
    + by intros ->.
    + intros [Hx _]. by apply Hsub.
    + intros [Hx| ->]; [by apply Hsub|done].
  - split; [done|]. unfold handleSelectAll.
    repeat case_match; by simpl.
Qed.

(** X15: as long as the data is not replaced, the selection only ever
    holds ids of rows of the table: the row boxes the table renders are
    those of rows on the current page, and select-all takes its ids from
    the data. *)
Theorem selection_within_data fuel (es : list Event) :
  ∀ (i i' : Instance) (out : list Payload),
  (2 ≤ fuel)%nat →
  Forall (λ e, isNewProps e = false) es →
  selectedRows (state i) ⊆ allIds (data (props i)) →
  runOffered fuel i es = Some (i', out) →
  props i' = props i
  ∧ selectedRows (state i') ⊆ allIds (data (props i')).
Proof.
  induction es as [|e es IH]; intros i i' out Hf Hes Hsub; simpl.
  - by intros [= <- <-].
  - apply Forall_cons in Hes as [He Hes].
    destruct (offered i e) eqn:Ho; [|done].
    destruct (handle_selection_within i e He Ho Hsub) as [Hp Hs].
    destruct (step_frame fuel i e Hf) as (i1 & H1 & P1 & _ & S1).
    rewrite H1. simpl.
    destruct (runOffered fuel i1 es) as [[i2 out2]|] eqn:Hrun; [|done].
    simpl. intros [= <- <-].
    destruct (IH i1 i2 out2 Hf Hes) as [P2 S2]; [|done|].
    + by rewrite P1, Hp, S1.
    + split; [by rewrite P2, P1|done].
Qed.

(** X16: on a header cell the Enter key and the space bar do exactly what
    a click does, on sortable and on other columns alike, and every other
    key does nothing. *)
Theorem header_key_same_as_click (col : Column) (k : string) (st : State) :
  (k = "Enter"%string ∨ k = " "%string →
     handleHeaderKey col k st = handleSort (dataIndex col) (sortable col) st) ∧
  (k ≠ "Enter"%string → k ≠ " "%string → handleHeaderKey col k st = st).
Proof.
  unfold handleHeaderKey, handleSort. split.
  - intros [-> | ->]; by destruct (notSortable (sortable col)).
  - intros H1 H2. rewrite !bool_decide_false by done.
    by rewrite andb_false_r.
Qed.

End offered_events.

(** ** Payloads, page order and new props *)

Section composed.
Context `{!Collator}.

(** X23: when the row ids are pairwise distinct, [onRowSelect] never
    receives more rows than ids are selected, and it receives exactly as
    many when every selected id belongs to a row. *)
Theorem payload_counts_selection (d : list Row) (ids : gset Id) :
  NoDup (id <$> d) →
  (length (materialize d ids) ≤ size ids)%nat
  ∧ (ids ⊆ allIds d → length (materialize d ids) = size ids).
Proof.
  intros Hnd.
  assert (NoDup (id <$> materialize d ids)) as Hnd'.
  { apply (sublist_NoDup _ (id <$> d)); [done|].
    apply fmap_sublist, sublist_filter. }
  pose proof (size_list_to_set (C:=gset Id) _ Hnd') as Hsz.
  rewrite length_fmap in Hsz.
  assert (list_to_set (id <$> materialize d ids) ⊆ ids) as Hsub.
  { intros x. rewrite elem_of_list_to_set, list_elem_of_fmap.
    intros (r & -> & Hr). by apply elem_of_materialize in Hr as [? _]. }
  split.
  - apply subseteq_size in Hsub. lia.
  - intros Hall. rewrite <- Hsz. f_equal.
    apply set_eq. intros x. split; [apply Hsub|].
    intros Hx. rewrite elem_of_list_to_set, list_elem_of_fmap.
    destruct (proj1 (elem_of_allIds d x) (Hall x Hx)) as (r & Hr & <-).
    exists r. split; [done|]. by apply elem_of_materialize.
Qed.

(** X24: pagination follows the sort.  For a comparator that is
    consistent on the rows and a page size of at least 1, no row of a
    page is placed after a row of a later page by the comparator. *)
Theorem pages_follow_sort_order (d : list Row) (c : SortConfig)
    (p k k' : Z) (x y : Row) :
  Consistent (rowCompare c) d →
  1 ≤ p → 1 ≤ k → k < k' →
  x ∈ pageSlice (sortedData d (Some c)) k p →
  y ∈ pageSlice (sortedData d (Some c)) k' p →
  rowCompare c x y ≤ 0.
Proof.
  intros HL Hp Hk Hkk'. simpl. set (s := sort (rowCompare c) d).
  rewrite !pageSlice_take_drop by lia. intros Hx Hy.
  pose proof (sort_StronglySorted _ d HL d ltac:(done)) as Hs. fold s in Hs.
  set (n := Z.to_nat (k * p)).
  rewrite <- (take_drop n s) in Hs.
  apply (StronglySorted_app_1_elem_of _ _ _ x y Hs).
  - assert (n = (Z.to_nat ((k - 1) * p) + Z.to_nat p)%nat) as -> by (unfold n; nia).
    rewrite <- take_take_drop. apply elem_of_app. by right.
  - apply subseteq_take in Hy.
    assert (Z.to_nat ((k' - 1) * p) = (n + (Z.to_nat ((k' - 1) * p) - n))%nat)
      as Heq by (unfold n; nia).
    rewrite Heq, <- drop_drop in Hy. by apply subseteq_drop in Hy.
Qed.


End composed.

(** * Properties of the form *)

Module InputFieldFacts.
Import InputField.

Lemma form_fields_applyUpdates q st :
  username (applyUpdates q st) = username st
  ∧ password (applyUpdates q st) = password st
  ∧ showPassword (applyUpdates q st) = showPassword st
  ∧ isHuman (applyUpdates q st) = isHuman st.
Proof.
  revert st. induction q as [|v q IH]; intros st; simpl; [done|].
  destruct (IH (setFullname v st)) as (-> & -> & -> & ->). done.
Qed.

Lemma form_fullname_applyUpdates q st :
  fullname (applyUpdates q st) = default (fullname st) (last q).
Proof.
  destruct q as [|v q] using rev_ind; [done|].
  unfold applyUpdates. by rewrite foldl_app, last_snoc.
Qed.

(** The loop needs at most two renders. *)
Lemma form_settle_spec fuel i :
  (2 ≤ fuel)%nat →
  settle fuel i
  = Some {| props := props i;
            state := applyUpdates (valueEffect i) (state i);
            committedValue := Some (value (props i)) |}.
Proof.
  intros Hf. destruct fuel as [|[|fuel]]; [lia..|]. cbn [settle].
  destruct (valueEffect i) as [|v q] eqn:Hq; [done|].
  assert (valueEffect {| props := props i;
                         state := applyUpdates (v :: q) (state i);
                         committedValue := Some (value (props i)) |} = [])
    as ->; [|done].
  unfold valueEffect. cbn [props committedValue].
  by rewrite decide_True by done.
Qed.

Lemma form_step_spec fuel i e :
  (2 ≤ fuel)%nat →
  ∃ i',
    step fuel i e = Some (i', (handle i e).2)
    ∧ props i' = (handle i e).1.1
    ∧ atRest i'
    ∧ username (state i') = username (handle i e).1.2
    ∧ password (state i') = password (handle i e).1.2
    ∧ showPassword (state i') = showPassword (handle i e).1.2
    ∧ isHuman (state i') = isHuman (handle i e).1.2
    ∧ fullname (state i')
      = default (fullname (handle i e).1.2)
          (last (valueEffect {| props := (handle i e).1.1;
                                state := (handle i e).1.2;
                                committedValue := committedValue i |})).
Proof.
  intros Hf. unfold step. destruct (handle i e) as [[p st] out]. simpl.
  rewrite form_settle_spec by done. simpl. eexists. split; [done|]. simpl.
  destruct (form_fields_applyUpdates
              (valueEffect {| props := p; state := st;
                              committedValue := committedValue i |}) st)
    as (-> & -> & -> & ->).
  by rewrite form_fullname_applyUpdates.
Qed.

Lemma form_mount_spec fuel p :
  (2 ≤ fuel)%nat →
  ∃ i, mount fuel p = Some i
       ∧ props i = p ∧ atRest i
       ∧ fullname (state i) = default ""%string (value p)
       ∧ username (state i) = ""%string
       ∧ password (state i) = ""%string
       ∧ showPassword (state i) = false
       ∧ isHuman (state i) = false.
Proof.
  intros Hf. unfold mount. rewrite form_settle_spec by done. eexists.
  split; [done|]. simpl.
  destruct (form_fields_applyUpdates
              (valueEffect {| props := p; state := initialState p;
                              committedValue := None |}) (initialState p))
    as (-> & -> & -> & ->).
  rewrite form_fullname_applyUpdates. split_and!; try done.
  unfold valueEffect. simpl. by destruct (value p).
Qed.

(** An event that is not a new props object leaves a form at rest with
    the state its handler computed. *)
Lemma form_step_no_effect fuel i e :
  (2 ≤ fuel)%nat → atRest i → (handle i e).1.1 = props i →
  ∃ i',
    step fuel i e = Some (i', (handle i e).2)
    ∧ props i' = props i ∧ atRest i'
    ∧ fullname (state i') = fullname (handle i e).1.2
    ∧ username (state i') = username (handle i e).1.2
    ∧ password (state i') = password (handle i e).1.2
    ∧ showPassword (state i') = showPassword (handle i e).1.2
    ∧ isHuman (state i') = isHuman (handle i e).1.2.
Proof.
  intros Hf Hr Hp.
  destruct (form_step_spec fuel i e Hf) as (i' & Hs & P & R & U & W & S & M & F).
  exists i'. split_and!; try done; [congruence|].
  rewrite F. unfold valueEffect. cbn [props committedValue].
  rewrite Hr, Hp. by rewrite decide_True by done.
Qed.

(** X17: the [value] prop is copied into the full-name field only when it
    changes to a string.  A render with the same [value] keeps what the
    user typed; a render with another string replaces it; a render whose
    [value] is not a string keeps it.  No other field is touched and
    nothing is called. *)
Theorem value_prop_sync fuel (i : Instance) (p' : Props) :
  (2 ≤ fuel)%nat → atRest i →
  ∃ i',
    step fuel i (SetProps p') = Some (i', [])
    ∧ props i' = p'
    ∧ fullname (state i')
      = match value p' with
        | Some s => if decide (value (props i) = Some s)
                    then fullname (state i) else s
        | None => fullname (state i)
        end
    ∧ username (state i') = username (state i)
    ∧ password (state i') = password (state i)
    ∧ showPassword (state i') = showPassword (state i)
    ∧ isHuman (state i') = isHuman (state i).
Proof.
  intros Hf Hr.
  destruct (form_step_spec fuel i (SetProps p') Hf)
    as (i' & Hs & P & R & U & W & S & M & F).
  exists i'. split_and!; try done.
  rewrite F. unfold valueEffect. cbn [props committedValue handle fst snd].
  rewrite Hr. destruct (value p') as [s|]; by repeat case_decide.
Qed.

(** X18: Reset, on a form at rest, empties the three text fields and the
    checkbox, calls [onClear] when it is supplied, and leaves the
    password visibility as it was; the full name is empty even when the
    [value] prop holds a string.  Afterwards Submit is disabled and the
    clear button is gone. *)
Theorem reset_clears_form fuel (i : Instance) :
  (2 ≤ fuel)%nat → atRest i →
  ∃ i',
    step fuel i ClickReset = Some (i', if onClear (props i) then [ClearCalled] else [])
    ∧ fullname (state i') = ""%string
    ∧ username (state i') = ""%string
    ∧ password (state i') = ""%string
    ∧ isHuman (state i') = false
    ∧ showPassword (state i') = showPassword (state i)
    ∧ offered i' ClickSubmit = false
    ∧ offered i' ClickClear = false.
Proof.
  intros Hf Hr.
  destruct (form_step_no_effect fuel i ClickReset Hf Hr eq_refl)
    as (i' & Hs & P & R & F & U & W & S & M).
  exists i'. simpl in *. split_and!; try done.
  - unfold offered, render. simpl. by rewrite M.
  - unfold offered, render. simpl. by rewrite F.
Qed.

(** X19: the clear button, clicked on a form at rest, empties the full
    name and nothing else, calls [onClear] when it is supplied, and is
    gone afterwards. *)
Theorem clear_fullname fuel (i : Instance) :
  (2 ≤ fuel)%nat → atRest i →
  ∃ i',
    step fuel i ClickClear = Some (i', if onClear (props i) then [ClearCalled] else [])
    ∧ fullname (state i') = ""%string
    ∧ username (state i') = username (state i)
    ∧ password (state i') = password (state i)
    ∧ showPassword (state i') = showPassword (state i)
    ∧ isHuman (state i') = isHuman (state i)
    ∧ offered i' ClickClear = false.
Proof.
  intros Hf Hr.
  destruct (form_step_no_effect fuel i ClickClear Hf Hr eq_refl)
    as (i' & Hs & P & R & F & U & W & S & M).
  exists i'. simpl in *. split_and!; try done.
  unfold offered, render. simpl. by rewrite F.
Qed.

(** X20: the alert of the submit button does not show the password: two
    forms that differ only in their non-empty passwords produce the same
    message. *)
Theorem submit_hides_password (st : State) (pw1 pw2 : string) :
  pw1 ≠ ""%string → pw2 ≠ ""%string →
  submitMessage (setPassword pw1 st) = submitMessage (setPassword pw2 st).
Proof.
  intros H1 H2. unfold submitMessage. simpl.
  apply String.eqb_neq in H1, H2. by rewrite H1, H2.
Qed.

(** What a form that is disabled or loading offers: new props only. *)
Lemma offered_when_disabled i e :
  isDisabled (props i) = true → isHuman (state i) = false →
  offered i e = true → ∃ p', e = SetProps p'.
Proof.
  intros Hd Hh. unfold offered, render. simpl. rewrite Hd, Hh.
  destruct e; simpl; try done; [by eexists|].
  by rewrite andb_false_r.
Qed.

(** X21: a form that is disabled or loading when it mounts, and stays so
    across every new props object, never changes by the user's hand: no
    sequence of events its controls offer checks the box, fills the user
    name or the password, opens the alert or calls [onClear]. *)
Theorem disabled_form_stays_idle fuel (p : Props) (es : list Event) :
  ∀ (i0 i : Instance) (out : list Output),
  (2 ≤ fuel)%nat →
  isDisabled p = true →
  Forall (λ e, isDisabled (propsAfter p e) = true) es →
  mount fuel p = Some i0 →
  runOffered fuel i0 es = Some (i, out) →
  out = []
  ∧ isHuman (state i) = false
  ∧ username (state i) = ""%string
  ∧ password (state i) = ""%string.
Proof.
  intros i0 i out Hf Hd Hes Hm Hrun.
  destruct (form_mount_spec fuel p Hf) as (j & Hj & P & R & _ & U & W & _ & M).
  rewrite Hm in Hj. injection Hj as <-.
  assert (isDisabled (props i0) = true) as Hd0 by by rewrite P.
  clear Hm P R. revert i0 i out Hd0 M U W Hrun.
  induction es as [|e es IH]; intros i0 i out Hd0 M U W; simpl.
  - by intros [= <- <-].
  - apply Forall_cons in Hes as [He Hes].
    destruct (offered i0 e) eqn:Ho; [|done].
    destruct (offered_when_disabled i0 e Hd0 M Ho) as [p' ->].
    destruct (form_step_spec fuel i0 (SetProps p') Hf)
      as (i1 & H1 & P1 & _ & U1 & W1 & _ & M1 & _).
    rewrite H1. simpl in *.
    destruct (runOffered fuel i1 es) as [[i2 out2]|] eqn:Hrun; [|done].
    simpl. intros [= <- <-].
    apply (IH Hes i1 i2 out2); [by rewrite P1|congruence..|done].
Qed.

(** X22: the [disabled] prop does not reach the submit button.  When the
    box is checked and new props set [disabled] without [loading], the
    inputs and Reset are disabled, yet Submit can still be clicked and
    opens the alert. *)
Theorem disabled_leaves_submit_enabled fuel (i : Instance) (p' : Props) :
  (2 ≤ fuel)%nat →
  isHuman (state i) = true → disabled p' = true → loading p' = false →
  ∃ i1 i2,
    step fuel i (SetProps p') = Some (i1, [])
    ∧ inputsDisabled (render (props i1) (state i1)) = true
    ∧ resetDisabled (render (props i1) (state i1)) = true
    ∧ offered i1 ClickSubmit = true
    ∧ step fuel i1 ClickSubmit = Some (i2, [Alert (submitMessage (state i1))]).
Proof.
  intros Hf Hh Hd Hl.
  destruct (form_step_spec fuel i (SetProps p') Hf)
    as (i1 & H1 & P1 & R1 & _ & _ & _ & M1 & _).
  destruct (form_step_spec fuel i1 ClickSubmit Hf) as (i2 & H2 & _).
  simpl in *. exists i1, i2. split_and!; try done.
  - unfold isDisabled. by rewrite P1, Hd.
  - unfold isDisabled. by rewrite P1, Hd.
  - unfold offered, render. simpl. by rewrite M1, Hh, P1, Hl.
Qed.

End InputFieldFacts.

(** * The further properties on the sample table and form *)

Section more_samples.
#[local] Existing Instance asciiCollator.

Lemma atRest_mounted p : atRest (mounted p).
Proof. pose proof (totalPages_ge_1 p). split; simpl; [done|lia]. Qed.

Lemma atRest_aliceSelected mode : atRest (aliceSelected mode).
Proof. split; [reflexivity|]. by vm_compute. Qed.

Lemma numericColumn_age_withGaps : numericColumn "age" withGaps.
Proof. unfold numericColumn. apply Forall_forall. by repeat constructor. Qed.

Lemma page_stays_in_range_witness :
  (2 ≤ 2)%nat
  ∧ itemsPerPage (tableProps tenRows multiple 2) ≠ 0
  ∧ Forall nonzeroPageSize
      [NextPage; NextPage; SetProps (tableProps mockData multiple 5); ToggleAll]
  ∧ ∃ i0 i out,
      mount 2 (tableProps tenRows multiple 2) = Some i0
      ∧ run 2 i0 [NextPage; NextPage; SetProps (tableProps mockData multiple 5); ToggleAll]
        = Some (i, out)
      ∧ 1 ≤ currentPage (state i) ≤ totalPages (props i).
Proof.
  assert (Forall nonzeroPageSize
            [NextPage; NextPage; SetProps (tableProps mockData multiple 5);
             ToggleAll]) as Hes.
  { repeat constructor. simpl. lia. }
  assert (itemsPerPage (tableProps tenRows multiple 2) ≠ 0) as Hp.
  { simpl. lia. }
  split_and!; [apply le_n|exact Hp|exact Hes|].
  exact (page_stays_in_range 2 (tableProps tenRows multiple 2)
           [NextPage; NextPage; SetProps (tableProps mockData multiple 5); ToggleAll]
           (le_n 2) Hp Hes).
Defined.

Lemma page_shown_size_witness :
  atRest (mounted (tableProps tenRows multiple 4))
  ∧ 1 ≤ itemsPerPage (tableProps tenRows multiple 4)
  ∧ len (paginatedData (tableProps tenRows multiple 4) initialState)
    = Z.min 4 (len tenRows - (1 - 1) * 4)
  ∧ (0 < len tenRows →
       0 < len (paginatedData (tableProps tenRows multiple 4) initialState)).
Proof.
  split; [apply atRest_mounted|]. split; [by vm_compute|].
  apply (page_shown_size (mounted (tableProps tenRows multiple 4))
           (atRest_mounted _)).
  by vm_compute.
Defined.

Lemma next_prev_round_trip_witness :
  (2 ≤ 2)%nat
  ∧ atRest (mounted (tableProps tenRows multiple 4))
  ∧ offered (mounted (tableProps tenRows multiple 4)) NextPage = true
  ∧ ∃ i1 i2,
      step 2 (mounted (tableProps tenRows multiple 4)) NextPage = Some (i1, [])
      ∧ currentPage (state i1) = 1 + 1
      ∧ offered i1 PrevPage = true
      ∧ step 2 i1 PrevPage = Some (i2, [])
      ∧ currentPage (state i2) = 1.
Proof.
  split; [apply le_n|]. split; [apply atRest_mounted|].
  split; [reflexivity|].
  destruct (next_prev_round_trip 2 (mounted (tableProps tenRows multiple 4))
              (le_n 2) (atRest_mounted _)) as [H _].
  apply H. reflexivity.
Defined.

Lemma disabled_iff_no_move_witness :
  atRest (mounted (tableProps tenRows multiple 4))
  ∧ renderPager (tableProps tenRows multiple 4) initialState = Some firstOfThree
  ∧ (nextDisabled firstOfThree = true
       ↔ currentPage (goToNext (tableProps tenRows multiple 4) initialState) = 1)
  ∧ (prevDisabled firstOfThree = true
       ↔ currentPage (goToPrev initialState) = 1).
Proof.
  split; [apply atRest_mounted|]. split; [reflexivity|].
  apply (disabled_iff_no_move (mounted (tableProps tenRows multiple 4))
           firstOfThree (atRest_mounted _)).
  reflexivity.
Defined.

Lemma pager_hidden_iff_one_page_witness :
  atRest (mounted (tableProps mockData multiple 10))
  ∧ 1 ≤ itemsPerPage (tableProps mockData multiple 10)
  ∧ (renderPager (tableProps mockData multiple 10) initialState = None
       ↔ len mockData ≤ 10)
  ∧ (renderPager (tableProps mockData multiple 10) initialState = None →
       paginatedData (tableProps mockData multiple 10) initialState
       = sortedData mockData None).
Proof.
  split; [apply atRest_mounted|]. split; [by vm_compute|].
  apply (pager_hidden_iff_one_page (mounted (tableProps mockData multiple 10))
           (atRest_mounted _)).
  by vm_compute.
Defined.

Lemma negative_page_size_witness :
  atRest (mounted (tableProps tenRows multiple (-2)))
  ∧ itemsPerPage (tableProps tenRows multiple (-2)) < 0
  ∧ totalPages (tableProps tenRows multiple (-2)) = 1
  ∧ paginatedData (tableProps tenRows multiple (-2)) initialState
    = take (Z.to_nat (len tenRows + -2)) (sortedData tenRows None).
Proof.
  split; [apply atRest_mounted|]. split; [by vm_compute|].
  apply (negative_page_size (mounted (tableProps tenRows multiple (-2)))
           (atRest_mounted _)).
  by vm_compute.
Defined.

Lemma only_navigation_moves_page_witness :
  (2 ≤ 2)%nat
  ∧ atRest (aliceSelected multiple)
  ∧ ∃ i' out,
      step 2 (aliceSelected multiple) (HeaderClick ageColumn) = Some (i', out)
      ∧ props i' = props (aliceSelected multiple)
      ∧ currentPage (state i') = currentPage (state (aliceSelected multiple)).
Proof.
  split; [apply le_n|]. split; [apply atRest_aliceSelected|].
  apply (only_navigation_moves_page 2 (aliceSelected multiple)
           (HeaderClick ageColumn) (le_n 2) (atRest_aliceSelected _));
    reflexivity.
Defined.

Lemma rows_without_value_first_witness :
  Consistent (rowCompare (byAge asc)) withGaps
  ∧ sortedData withGaps (Some (byAge asc))
    = filter (λ r, isNullish (getField r "age") = true) withGaps
      ++ filter (λ r, isNullish (getField r "age") = false)
           (sortedData withGaps (Some (byAge asc))).
Proof.
  split.
  - exact (rowCompare_numeric_consistent (byAge asc) withGaps
             numericColumn_age_withGaps).
  - exact (rows_without_value_first "age" withGaps asc
             (rowCompare_numeric_consistent (byAge asc) withGaps
                numericColumn_age_withGaps)).
Defined.

Example gaps_first_then_by_age :
  id <$> sortedData withGaps (Some (byAge asc)) = [IdNum 5; IdNum 2; IdNum 1]
  ∧ id <$> sortedData withGaps (Some (byAge desc)) = [IdNum 1; IdNum 2; IdNum 5].
Proof. split; vm_compute; reflexivity. Qed.

Lemma distinct_ages_mockData :
  ∀ a, a ∈ mockData → filter (λ y, rowCompare (byAge asc) a y = 0) mockData = [a].
Proof. apply Forall_forall. repeat constructor; vm_compute; reflexivity. Qed.

Lemma descending_reverses_ascending_witness :
  Consistent (rowCompare (byAge asc)) mockData
  ∧ (∀ a, a ∈ mockData →
       filter (λ y, rowCompare (byAge asc) a y = 0) mockData = [a])
  ∧ sortedData mockData (Some (byAge desc))
    = reverse (sortedData mockData (Some (byAge asc))).
Proof.
  split; [exact (rowCompare_numeric_consistent (byAge asc) mockData
                   numericColumn_age_mockData)|].
  split; [exact distinct_ages_mockData|].
  exact (descending_reverses_ascending "age" mockData
           (rowCompare_numeric_consistent (byAge asc) mockData
              numericColumn_age_mockData)
           distinct_ages_mockData).
Defined.

Lemma toggle_twice_restores_witness :
  (2 ≤ 2)%nat
  ∧ selectable (props (aliceSelected multiple)) = true
  ∧ selectionMode (props (aliceSelected multiple)) = multiple
  ∧ ∃ i1 out1 i2 out2,
      step 2 (aliceSelected multiple) (ToggleRow bob) = Some (i1, out1)
      ∧ step 2 i1 (ToggleRow bob) = Some (i2, out2)
      ∧ selectedRows (state i2) = selectedRows (state (aliceSelected multiple)).
Proof.
  split_and!; [apply le_n|reflexivity..|].
  destruct (toggle_twice_restores 2 (aliceSelected multiple) bob alice
              (le_n 2) eq_refl eq_refl) as [H _].
  exact H.
Defined.

Lemma NoDup_ids_mockData : NoDup (id <$> mockData).
Proof. apply (bool_decide_unpack _). by vm_compute. Qed.

Lemma dup_ids_clones : ¬ NoDup (id <$> clones).
Proof. apply (bool_decide_unpack _). by vm_compute. Qed.

Lemma select_all_round_trip_witness :
  (2 ≤ 2)%nat
  ∧ NoDup (id <$> data (props (aliceSelected multiple)))
  ∧ 0 < len (data (props (aliceSelected multiple)))
  ∧ Z.of_nat (size (selectedRows (state (aliceSelected multiple))))
    ≠ len (data (props (aliceSelected multiple)))
  ∧ ∃ i1 i2,
      step 2 (aliceSelected multiple) ToggleAll = Some (i1, [mockData])
      ∧ selectedRows (state i1) = allIds mockData
      ∧ selectAllChecked (props i1) (state i1) = true
      ∧ step 2 i1 ToggleAll = Some (i2, [[]])
      ∧ selectedRows (state i2) = ∅
      ∧ selectAllChecked (props i2) (state i2) = false.
Proof.
  assert (Z.of_nat (size (selectedRows (state (aliceSelected multiple))))
          ≠ len (data (props (aliceSelected multiple)))) as Hsz
    by by vm_compute.
  split_and!; [apply le_n|exact NoDup_ids_mockData|by vm_compute|exact Hsz|].
  apply (select_all_round_trip 2 (aliceSelected multiple) (le_n 2) eq_refl eq_refl
           NoDup_ids_mockData); [by vm_compute|exact Hsz].
Defined.

Lemma duplicate_ids_block_deselect_witness :
  (2 ≤ 2)%nat
  ∧ ¬ NoDup (id <$> clones)
  ∧ selectAllChecked (tableProps clones multiple 10) initialState = false
  ∧ ∃ i', step 2 (mounted (tableProps clones multiple 10)) ToggleAll
          = Some (i', [clones])
          ∧ selectedRows (state i') = allIds clones
          ∧ selectAllChecked (props i') (state i') = false.
Proof.
  split; [apply le_n|]. split; [exact dup_ids_clones|].
  apply (duplicate_ids_block_deselect 2 (mounted (tableProps clones multiple 10))
           (le_n 2) eq_refl eq_refl dup_ids_clones).
  intros x Hx. by apply not_elem_of_empty in Hx.
Defined.

Lemma select_all_checked_iff_witness :
  NoDup (id <$> mockData)
  ∧ 0 < len mockData
  ∧ (selectAllChecked (tableProps mockData multiple 2)
       (state (aliceSelected multiple)) = true
     ↔ ∀ r, r ∈ mockData → id r ∈ selectedRows (state (aliceSelected multiple))).
Proof.
  split; [exact NoDup_ids_mockData|]. split; [by vm_compute|].
  apply (select_all_checked_iff (tableProps mockData multiple 2)
           (state (aliceSelected multiple)) NoDup_ids_mockData);
    [by vm_compute|].
  intros x Hx. change (x ∈ ({[ IdNum 1 ]} : gset Id)) in Hx.
  apply elem_of_singleton in Hx as ->.
  apply elem_of_allIds. exists alice. split; [apply list_elem_of_here|reflexivity].
Defined.

Lemma selection_within_data_witness :
  ∃ i' out,
    runOffered 2 (mounted (tableProps mockData multiple 2))
      [ToggleRow alice; HeaderClick ageColumn; ToggleRow bob; NextPage; ToggleRow charlie]
    = Some (i', out)
    ∧ props i' = tableProps mockData multiple 2
    ∧ selectedRows (state i') ⊆ allIds (data (props i')).
Proof.
  eexists _, _. split; [vm_compute; reflexivity|].
  eapply (selection_within_data 2
            [ToggleRow alice; HeaderClick ageColumn; ToggleRow bob; NextPage;
             ToggleRow charlie]
            (mounted (tableProps mockData multiple 2))).
  - apply le_n.
  - repeat constructor.
  - intros x Hx. by apply not_elem_of_empty in Hx.
  - vm_compute. reflexivity.
Defined.

Lemma header_key_same_as_click_witness :
  handleHeaderKey ageColumn " " initialState
  = handleSort (dataIndex ageColumn) (sortable ageColumn) initialState
  ∧ handleHeaderKey statusColumn "Enter" initialState = initialState
  ∧ handleHeaderKey ageColumn "Tab" initialState = initialState.
Proof.
  split_and!.
  - apply (proj1 (header_key_same_as_click ageColumn " " initialState)).
    by right.
  - rewrite (proj1 (header_key_same_as_click statusColumn "Enter" initialState)
               (or_introl eq_refl)).
    reflexivity.
  - apply (proj2 (header_key_same_as_click ageColumn "Tab" initialState));
      discriminate.
Defined.

Lemma payload_counts_selection_witness :
  NoDup (id <$> mockData)
  ∧ (length (materialize mockData {[ IdNum 1; IdNum 9 ]})
     ≤ size ({[ IdNum 1; IdNum 9 ]} : gset Id))%nat
  ∧ (({[ IdNum 1; IdNum 9 ]} : gset Id) ⊆ allIds mockData →
       length (materialize mockData {[ IdNum 1; IdNum 9 ]})
       = size ({[ IdNum 1; IdNum 9 ]} : gset Id)).
Proof.
  split; [exact NoDup_ids_mockData|].
  exact (payload_counts_selection mockData {[ IdNum 1; IdNum 9 ]} NoDup_ids_mockData).
Defined.

Example stale_id_shortens_payload :
  length (materialize mockData {[ IdNum 1; IdNum 9 ]}) = 1%nat
  ∧ size ({[ IdNum 1; IdNum 9 ]} : gset Id) = 2%nat
  ∧ length (materialize clones {[ IdNum 1 ]}) = 2%nat.
Proof. split_and!; vm_compute; reflexivity. Qed.

Lemma numericColumn_age_tenRows : numericColumn "age" tenRows.
Proof. unfold numericColumn. apply Forall_forall. by repeat constructor. Qed.

Lemma conforming_sort_agrees_witness :
  ConformingSort (@arrayTimSort Row)
  ∧ (∀ c, Some (byAge asc) = Some c → Consistent (rowCompare c) twins)
  ∧ sortedDataWith arrayTimSort twins (Some (byAge asc))
    = sortedData twins (Some (byAge asc))
  ∧ sortedDataWith arrayTimSort
      (sortedDataWith arrayTimSort twins (Some (byAge asc))) (Some (byAge asc))
    = sortedDataWith arrayTimSort twins (Some (byAge asc)).
Proof.
  split; [exact arrayTimSort_conforming|].
  split; [exact (consistent_byAge twins asc numericColumn_age_twins)|].
  exact (conforming_sort_agrees arrayTimSort twins (Some (byAge asc))
           arrayTimSort_conforming
           (consistent_byAge twins asc numericColumn_age_twins)).
Defined.

Lemma pages_follow_sort_order_witness :
  Consistent (rowCompare (byAge desc)) tenRows
  ∧ mockUser 10 "row" 30 "active" ∈ pageSlice (sortedData tenRows (Some (byAge desc))) 1 4
  ∧ mockUser 3 "row" 23 "active" ∈ pageSlice (sortedData tenRows (Some (byAge desc))) 2 4
  ∧ rowCompare (byAge desc) (mockUser 10 "row" 30 "active")
      (mockUser 3 "row" 23 "active") ≤ 0.
Proof.
  assert (mockUser 10 "row" 30 "active"
          ∈ pageSlice (sortedData tenRows (Some (byAge desc))) 1 4) as Hx
    by (vm_compute; apply list_elem_of_here).
  assert (mockUser 3 "row" 23 "active"
          ∈ pageSlice (sortedData tenRows (Some (byAge desc))) 2 4) as Hy
    by (vm_compute; do 3 apply list_elem_of_further; apply list_elem_of_here).
  split; [exact (rowCompare_numeric_consistent (byAge desc) tenRows
                   numericColumn_age_tenRows)|].
  split; [exact Hx|]. split; [exact Hy|].
  apply (pages_follow_sort_order tenRows (byAge desc) 4 1 2 _ _
           (rowCompare_numeric_consistent (byAge desc) tenRows
              numericColumn_age_tenRows)); [by vm_compute..|exact Hx|exact Hy].
Defined.


End more_samples.

Module InputFieldSamples.
Import InputField InputFieldFacts.

Lemma atRest_filledIn : atRest filledIn.
Proof. reflexivity. Qed.

Lemma value_prop_sync_witness :
  (2 ≤ 2)%nat
  ∧ atRest filledIn
  ∧ (∃ i', step 2 filledIn (SetProps signUp) = Some (i', [])
           ∧ fullname (state i') = "Jane D"%string)
  ∧ (∃ i', step 2 filledIn (SetProps (locked (Some "Joan"%string))) = Some (i', [])
           ∧ fullname (state i') = "Joan"%string
           ∧ password (state i') = "hunter2"%string).
Proof.
  split; [apply le_n|]. split; [exact atRest_filledIn|]. split.
  - destruct (value_prop_sync 2 filledIn signUp (le_n 2) atRest_filledIn)
      as (i' & Hs & _ & Hf & _).
    exists i'. split; [exact Hs|exact Hf].
  - destruct (value_prop_sync 2 filledIn (locked (Some "Joan"%string)) (le_n 2)
                atRest_filledIn) as (i' & Hs & _ & Hf & _ & Hp & _).
    exists i'. split; [exact Hs|]. split; [exact Hf|exact Hp].
Defined.

Lemma reset_clears_form_witness :
  (2 ≤ 2)%nat
  ∧ atRest filledIn
  ∧ ∃ i',
      step 2 filledIn ClickReset = Some (i', [ClearCalled])
      ∧ fullname (state i') = ""%string
      ∧ username (state i') = ""%string
      ∧ password (state i') = ""%string
      ∧ isHuman (state i') = false
      ∧ showPassword (state i') = true
      ∧ offered i' ClickSubmit = false
      ∧ offered i' ClickClear = false.
Proof.
  split; [apply le_n|]. split; [exact atRest_filledIn|].
  exact (reset_clears_form 2 filledIn (le_n 2) atRest_filledIn).
Defined.

Lemma clear_fullname_witness :
  (2 ≤ 2)%nat
  ∧ atRest filledIn
  ∧ offered filledIn ClickClear = true
  ∧ ∃ i',
      step 2 filledIn ClickClear = Some (i', [ClearCalled])
      ∧ fullname (state i') = ""%string
      ∧ username (state i') = "jane"%string
      ∧ password (state i') = "hunter2"%string
      ∧ showPassword (state i') = true
      ∧ isHuman (state i') = true
      ∧ offered i' ClickClear = false.
Proof.
  split; [apply le_n|]. split; [exact atRest_filledIn|]. split; [reflexivity|].
  exact (clear_fullname 2 filledIn (le_n 2) atRest_filledIn).
Defined.

Lemma submit_hides_password_witness :
  "hunter2"%string ≠ ""%string
  ∧ "correct horse"%string ≠ ""%string
  ∧ submitMessage (setPassword "hunter2" (state filledIn))
    = submitMessage (setPassword "correct horse" (state filledIn)).
Proof.
  assert ("hunter2"%string ≠ ""%string) as H1 by discriminate.
  assert ("correct horse"%string ≠ ""%string) as H2 by discriminate.
  split; [exact H1|]. split; [exact H2|].
  exact (submit_hides_password (state filledIn) "hunter2" "correct horse" H1 H2).
Defined.

Lemma disabled_form_stays_idle_witness :
  ∃ i0 i out,
    mount 2 (locked None) = Some i0
    ∧ runOffered 2 i0 [SetProps (locked (Some "Jane"%string)); SetProps (locked None)]
      = Some (i, out)
    ∧ out = []
    ∧ isHuman (state i) = false
    ∧ username (state i) = ""%string
    ∧ password (state i) = ""%string.
Proof.
  eexists _, _, _. split; [vm_compute; reflexivity|].
  split; [vm_compute; reflexivity|].
  eapply (disabled_form_stays_idle 2 (locked None)
            [SetProps (locked (Some "Jane"%string)); SetProps (locked None)]).
  - apply le_n.
  - reflexivity.
  - repeat constructor.
  - vm_compute. reflexivity.
  - vm_compute. reflexivity.
Defined.

Lemma disabled_leaves_submit_enabled_witness :
  (2 ≤ 2)%nat
  ∧ isHuman (state filledIn) = true
  ∧ disabled (locked (Some "Jane Doe"%string)) = true
  ∧ loading (locked (Some "Jane Doe"%string)) = false
  ∧ ∃ i1 i2,
      step 2 filledIn (SetProps (locked (Some "Jane Doe"%string))) = Some (i1, [])
      ∧ inputsDisabled (render (props i1) (state i1)) = true
      ∧ resetDisabled (render (props i1) (state i1)) = true
      ∧ offered i1 ClickSubmit = true
      ∧ step 2 i1 ClickSubmit = Some (i2, [Alert (submitMessage (state i1))]).
Proof.
  split_and!; [apply le_n|reflexivity..|].
  exact (disabled_leaves_submit_enabled 2 filledIn (locked (Some "Jane Doe"%string))
           (le_n 2) eq_refl eq_refl eq_refl).
Defined.

(** The tests of the form: the box enables Submit, Reset disables it. *)
Example submit_follows_the_box :
  (λ r, offered r.1 ClickSubmit)
    <$> (i0 ← mount 2 signUp; runOffered 2 i0 [CheckHuman true])
  = Some true
  ∧ (λ r, offered r.1 ClickSubmit)
      <$> (i0 ← mount 2 signUp; runOffered 2 i0 [CheckHuman true; ClickReset])
    = Some false.
Proof. split; vm_compute; reflexivity. Qed.

End InputFieldSamples.
